(** * agent-chat-ui: reconciliation of stream and poll, Q/A extraction

    A shallow embedding of the algorithmic core of the chat client:

    - [components/thread/messages/qa-pairs-utils.ts]
      ([deduplicateQAPairs], [normalizeOpposingParty],
      [extractCounterpartyMessage], [parseQAPairsFromContent]);
    - [components/thread/utils.ts] ([getContentString]);
    - [providers/Stream.tsx] ([refreshHistory], the thread-change effect,
      [effectiveMessages], the settings of [StreamProvider]);
    - [components/thread/index.tsx] ([detectedQAPairs], [cachedQAPairs],
      the transcript list, the error toast, [handleSubmit]);
    - [components/thread/messages/ai.tsx] (the early returns of
      [AssistantMessage]);
    - [components/thread/messages/qa-pairs-floating.tsx] and
      [qa-pairs-display.tsx] ([toggleItem], [toggleAll]).

    A JavaScript string is modelled as the list of its UTF-16 code units.
    White space, line terminators and digits are the sets of ECMA-262.  The
    case tables of Unicode are not embedded: the case mappings are written
    out for the code units below 128 and are parameters of the development
    above ([UnicodeTables]).  Regular expressions are run by a backtracking
    matcher that follows the continuation semantics of ECMA-262 (section
    22.2.2). *)

From Stdlib Require Import ZArith NArith Ascii String List Bool Lia.
From stdpp Require Import base option list gmap strings pretty.
Import ListNotations.

Local Open Scope Z_scope.
Local Open Scope nat_scope.
Local Open Scope list_scope.

(* ===================================================================== *)
(** ** JavaScript strings *)
(* ===================================================================== *)

(** A string: its UTF-16 code units, in order. *)
Definition jsstring : Type := list N.

(** The code unit of a character below 256, and the string of a literal. *)
Definition cu (c : ascii) : N := N_of_ascii c.
Definition js (s : string) : jsstring := map cu (list_ascii_of_string s).

(** What the development takes from the Unicode case tables.
    [toLowerCaseUnicode s] is [s.toLowerCase()] for a string [s] with a code
    unit above 127.  [toUpperCaseUnit ch] is, for a code unit [ch] above
    127, the code unit of the upper case of [ch] when that is a single code
    unit, and [ch] otherwise (steps 3 to 7 of Canonicalize).  Lower-casing
    never makes a string empty. *)
Class UnicodeTables := {
  toLowerCaseUnicode : jsstring -> jsstring;
  toUpperCaseUnit : N -> N;
  toLowerCaseUnicode_nonempty : forall s, s <> [] -> toLowerCaseUnicode s <> []
}.

Module JSString.

(** WhiteSpace and LineTerminator of ECMA-262: TAB, LF, VT, FF, CR, SP,
    U+00A0, U+1680, U+2000 to U+200A, U+2028, U+2029, U+202F, U+205F,
    U+3000, U+FEFF. *)
Definition whiteSpaceUnits : list N :=
  [ 9; 10; 11; 12; 13; 32; 160; 5760;
    8192; 8193; 8194; 8195; 8196; 8197; 8198; 8199; 8200; 8201; 8202;
    8232; 8233; 8239; 8287; 12288; 65279 ]%N.

Definition digitUnits : list N :=
  [ 48; 49; 50; 51; 52; 53; 54; 55; 56; 57 ]%N.

Definition isWhiteSpace (c : N) : bool := existsb (N.eqb c) whiteSpaceUnits.

Definition isDigit (c : N) : bool := existsb (N.eqb c) digitUnits.

(** LineTerminator: LF, CR, U+2028, U+2029. *)
Definition isLineTerminator (c : N) : bool :=
  existsb (N.eqb c) [ 10; 13; 8232; 8233 ]%N.

Definition isAscii (c : N) : bool := (c <? 128)%N.

(** The case mappings below 128: A-Z and a-z. *)
Definition asciiLower (c : N) : N :=
  if ((65 <=? c) && (c <=? 90))%N then (c + 32)%N else c.

Definition asciiUpper (c : N) : N :=
  if ((97 <=? c) && (c <=? 122))%N then (c - 32)%N else c.

Fixpoint trimStartChars (l : jsstring) : jsstring :=
  match l with
  | c :: l' => if isWhiteSpace c then trimStartChars l' else l
  | [] => []
  end.

Definition trimEndChars (l : jsstring) : jsstring :=
  rev (trimStartChars (rev l)).

(** [String.prototype.trim] *)
Definition trim (s : jsstring) : jsstring :=
  trimEndChars (trimStartChars s).

(** [String.prototype.toLowerCase]: code unit by code unit for a string
    below 128, by the tables for any other. *)
Definition toLowerCase {tables : UnicodeTables} (s : jsstring) : jsstring :=
  if forallb isAscii s then map asciiLower s else toLowerCaseUnicode s.

Fixpoint isPrefixOf (p l : jsstring) : bool :=
  match p, l with
  | [], _ => true
  | a :: p', b :: l' => if N.eqb a b then isPrefixOf p' l' else false
  | _ :: _, [] => false
  end.

(** [String.prototype.startsWith] *)
Definition startsWith (s p : jsstring) : bool := isPrefixOf p s.

(** The scan behind [lastIndexOf]: [i] is the index of the head of [l],
    [acc] the last index at which the needle was seen so far. *)
Fixpoint lastIndexFrom (needle l : jsstring) (i acc : Z) : Z :=
  match l with
  | [] => if isPrefixOf needle [] then i else acc
  | _ :: l' =>
      lastIndexFrom needle l' (i + 1)%Z (if isPrefixOf needle l then i else acc)
  end.

(** [String.prototype.lastIndexOf]: the last index, or -1. *)
Definition lastIndexOf (s needle : jsstring) : Z :=
  lastIndexFrom needle s 0%Z (-1)%Z.

Definition clampIndex (len : nat) (i : Z) : nat :=
  Nat.min (Z.to_nat i) len.

(** [String.prototype.substring(start, end)]: both bounds are clamped to
    [0 .. length] and swapped when out of order. *)
Definition substring (s : jsstring) (istart iend : Z) : jsstring :=
  let a := clampIndex (length s) istart in
  let b := clampIndex (length s) iend in
  let lo := Nat.min a b in
  let hi := Nat.max a b in
  take (hi - lo) (drop lo s).

(** [String.prototype.substring(start)] *)
Definition substringFrom (s : jsstring) (istart : Z) : jsstring :=
  substring s istart (Z.of_nat (length s)).

(** [Array.prototype.join] on an array of strings *)
Fixpoint join (sep : jsstring) (l : list jsstring) : jsstring :=
  match l with
  | [] => []
  | [x] => x
  | x :: rest => x ++ sep ++ join sep rest
  end.

(** Truthiness of a string: only the empty string is falsy. *)
Definition truthy (s : jsstring) : bool :=
  match s with [] => false | _ => true end.

End JSString.

(* ===================================================================== *)
(** ** Regular expressions: a backtracking matcher after ECMA-262 *)
(* ===================================================================== *)

Module RegExp.

Inductive ClassAtom :=
| CChar (c : N)                (* a single code unit *)
| CDigit                       (* \d *)
| CSpace.                      (* \s *)

Inductive regex :=
| Empty
| Char (c : N)
| AnyChar                                        (* . *)
| CharClass (negated : bool) (atoms : list ClassAtom)
| Seq (r1 r2 : regex)
| Alt (r1 r2 : regex)
| Group (n : nat) (r : regex)                    (* n-th capturing group *)
| Quant (min : nat) (max : option nat) (greedy : bool) (r : regex)
| NegLookahead (r : regex)                       (* (?!r) *)
| AssertStart                                    (* ^ *)
| AssertEnd.                                     (* $ *)

Record Flags := mkFlags { ignoreCase : bool; dotAll : bool }.

(** The MatchState of the standard: the end index, the input that is left
    from there, and the captures found so far. *)
Record MatchState := mkState {
  endIndex : nat;
  rest : jsstring;
  captures : list (nat * jsstring)
}.

Definition setCapture (n : nat) (v : jsstring) (x : MatchState) : MatchState :=
  mkState (endIndex x) (rest x)
    ((n, v) :: List.filter (fun kv => negb (fst kv =? n)) (captures x)).

Definition clearCaptures (ns : list nat) (x : MatchState) : MatchState :=
  mkState (endIndex x) (rest x)
    (List.filter (fun kv => negb (existsb (Nat.eqb (fst kv)) ns)) (captures x)).

Fixpoint getCapture (n : nat) (caps : list (nat * jsstring)) : option jsstring :=
  match caps with
  | [] => None
  | (k, v) :: caps' => if k =? n then Some v else getCapture n caps'
  end.

Fixpoint groupsOf (r : regex) : list nat :=
  match r with
  | Seq r1 r2 | Alt r1 r2 => groupsOf r1 ++ groupsOf r2
  | Group n r1 => n :: groupsOf r1
  | Quant _ _ _ r1 | NegLookahead r1 => groupsOf r1
  | _ => []
  end.

(** The code units of a class atom. *)
Definition atomMembers (a : ClassAtom) : list N :=
  match a with
  | CChar d => [d]
  | CDigit => JSString.digitUnits
  | CSpace => JSString.whiteSpaceUnits
  end.

Section Matcher.
Context {tables : UnicodeTables}.
Variable flags : Flags.

(** Canonicalize, for a pattern without the [u] flag: with [/i] the upper
    case of the code unit, unless that leaves the code units above 127 for
    those below. *)
Definition canonicalize (ch : N) : N :=
  if ignoreCase flags then
    if JSString.isAscii ch then JSString.asciiUpper ch
    else
      let cu := toUpperCaseUnit ch in
      if JSString.isAscii cu then ch else cu
  else ch.

(** Is there a member [a] of the atom with
    [canonicalize a = canonicalize c]? *)
Definition atomMatches (a : ClassAtom) (c : N) : bool :=
  existsb (fun d => N.eqb (canonicalize d) (canonicalize c)) (atomMembers a).

Definition advance (x : MatchState) (rest' : jsstring) : MatchState :=
  mkState (S (endIndex x)) rest' (captures x).

(** One code unit of the input against a test. *)
Definition charMatcher (test : N -> bool) (x : MatchState)
    (c : MatchState -> option MatchState) : option MatchState :=
  match rest x with
  | ch :: rest' => if test ch then c (advance x rest') else None
  | [] => None
  end.

(** RepeatMatcher: at most [fuel] rounds; a round with [min = 0] must
    move the end index, so [min + length (rest x)] rounds can succeed. *)
Fixpoint repeatMatcher (m : MatchState -> (MatchState -> option MatchState) -> option MatchState)
    (groups : list nat) (greedy : bool) (fuel : nat) (min : nat) (max : option nat)
    (x : MatchState) (c : MatchState -> option MatchState) : option MatchState :=
  match fuel with
  | 0 => None
  | S fuel' =>
      match max with
      | Some 0 => c x
      | _ =>
          let d := fun y =>
            if (min =? 0) && (endIndex y =? endIndex x) then None
            else repeatMatcher m groups greedy fuel' (Nat.pred min)
                   (Nat.pred <$> max) y c in
          let xr := clearCaptures groups x in
          if negb (min =? 0) then m xr d
          else if greedy then
            match m xr d with Some z => Some z | None => c x end
          else
            match c x with Some z => Some z | None => m xr d end
      end
  end.

Fixpoint matcher (r : regex) (x : MatchState)
    (c : MatchState -> option MatchState) {struct r} : option MatchState :=
  match r with
  | Empty => c x
  | Char a => charMatcher (fun ch => N.eqb (canonicalize ch) (canonicalize a)) x c
  | AnyChar =>
      charMatcher (fun ch => dotAll flags || negb (JSString.isLineTerminator ch)) x c
  | CharClass negated atoms =>
      charMatcher (fun ch => xorb negated (existsb (fun a => atomMatches a ch) atoms)) x c
  | Seq r1 r2 => matcher r1 x (fun y => matcher r2 y c)
  | Alt r1 r2 =>
      match matcher r1 x c with
      | Some z => Some z
      | None => matcher r2 x c
      end
  | Group n r1 =>
      matcher r1 x (fun y =>
        c (setCapture n (take (endIndex y - endIndex x) (rest x)) y))
  | Quant min max greedy r1 =>
      repeatMatcher (matcher r1) (groupsOf r1) greedy
        (S (min + length (rest x))) min max x c
  | NegLookahead r1 =>
      match matcher r1 x Some with
      | Some _ => None
      | None => c x
      end
  | AssertStart => if endIndex x =? 0 then c x else None
  | AssertEnd => match rest x with [] => c x | _ :: _ => None end
  end.

(** The search of RegExpBuiltinExec: the first index from [i] on at which
    the pattern matches; [l] is the input from [i]. *)
Fixpoint scanFrom (r : regex) (i : nat) (l : jsstring) {struct l}
    : option (nat * jsstring * MatchState) :=
  match matcher r (mkState i l []) Some with
  | Some y => Some (i, l, y)
  | None =>
      match l with
      | [] => None
      | _ :: l' => scanFrom r (S i) l'
      end
  end.

End Matcher.

(** The match object: [index], the end of the match and [match[n]]. *)
Record MatchResult := mkResult {
  index : nat;
  matchEnd : nat;
  matchGroups : list (nat * jsstring);
  matched : jsstring
}.

Definition group (n : nat) (m : MatchResult) : option jsstring :=
  getCapture n (matchGroups m).

Section Exec.
Context {tables : UnicodeTables}.

(** [re.exec(input)] with [re.lastIndex = lastIndex]. *)
Definition exec (flags : Flags) (r : regex) (input : jsstring) (lastIndex : nat)
    : option MatchResult :=
  if length input <? lastIndex then None
  else
    match scanFrom flags r lastIndex (drop lastIndex input) with
    | Some (i, li, y) =>
        Some (mkResult i (endIndex y) (captures y) (take (endIndex y - i) li))
    | None => None
    end.

(** [input.match(re)] for a pattern without the [g] flag. *)
Definition matchFirst (flags : Flags) (r : regex) (input : jsstring) : option MatchResult :=
  exec flags r input 0.

(** [re.test(input)] for a pattern without the [g] flag. *)
Definition test (flags : Flags) (r : regex) (input : jsstring) : bool :=
  bool_decide (is_Some (matchFirst flags r input)).

(** [while ((match = re.exec(input)) !== null) { ... }] for a pattern with
    the [g] flag: every round restarts at the end of the last match. *)
Fixpoint execLoop (flags : Flags) (r : regex) (input : jsstring)
    (fuel lastIndex : nat) : list MatchResult :=
  match fuel with
  | 0 => []
  | S fuel' =>
      match exec flags r input lastIndex with
      | Some m => m :: execLoop flags r input fuel' (matchEnd m)
      | None => []
      end
  end.

Definition execAll (flags : Flags) (r : regex) (input : jsstring) : list MatchResult :=
  execLoop flags r input (S (length input)) 0.

End Exec.

(** Pattern syntax. *)
Fixpoint lit (s : jsstring) : regex :=
  match s with
  | [] => Empty
  | [c] => Char c
  | c :: s' => Seq (Char c) (lit s')
  end.

Fixpoint seqs (rs : list regex) : regex :=
  match rs with
  | [] => Empty
  | [r] => r
  | r :: rs' => Seq r (seqs rs')
  end.

Fixpoint alts (rs : list regex) : regex :=
  match rs with
  | [] => Empty
  | [r] => r
  | r :: rs' => Alt r (alts rs')
  end.

Definition star (r : regex) : regex := Quant 0 None true r.       (* r* *)
Definition plus (r : regex) : regex := Quant 1 None true r.       (* r+ *)
Definition plusLazy (r : regex) : regex := Quant 1 None false r.  (* r+? *)
Definition opt (r : regex) : regex := Quant 0 (Some 1) true r.    (* r? *)
Definition digit : regex := CharClass false [CDigit].             (* \d *)
Definition space : regex := CharClass false [CSpace].             (* \s *)
Definition noneOf (cs : list N) : regex := CharClass true (map CChar cs).

(** A state of a run over an input of [n] code units. *)
Definition wf (n : nat) (x : MatchState) : Prop :=
  endIndex x + length (rest x) = n.

(** Two continuations that agree on every state from [x] onwards. *)
Definition agreeFrom (n : nat) (x : MatchState)
    (c c' : MatchState -> option MatchState) : Prop :=
  forall y, wf n y -> endIndex x <= endIndex y -> c y = c' y.

(** A lower bound on the length of a match. *)
Fixpoint minLen (r : regex) : nat :=
  match r with
  | Char _ | AnyChar | CharClass _ _ => 1
  | Seq r1 r2 => minLen r1 + minLen r2
  | Alt r1 r2 => Nat.min (minLen r1) (minLen r2)
  | Group _ r1 => minLen r1
  | Quant min max _ r1 =>
      match min, max with
      | 0, _ | _, Some 0 => 0
      | _, _ => minLen r1
      end
  | Empty | NegLookahead _ | AssertStart | AssertEnd => 0
  end.

End RegExp.

(* ===================================================================== *)
(** ** qa-pairs-utils.ts: the Q/A item and the deduplicator *)
(* ===================================================================== *)

Record QAPair := mkQAPair { question : jsstring; answer : jsstring }.

Inductive QAMode := full | teaser.
Inductive OpposingParty := buyer | seller.

Module Dedup.
Section WithTables.
Context {tables : UnicodeTables}.

(** [qaPairs[i].question.trim().toLowerCase()] *)
Definition normalizedQuestion (p : QAPair) : jsstring :=
  JSString.toLowerCase (JSString.trim (question p)).

(** First loop of [deduplicateQAPairs]: [lastOccurrenceIndex.set(key, i)]
    for [i] from the index of the head of [qaPairs] upwards. *)
Fixpoint firstPass (qaPairs : list QAPair) (i : nat)
    (lastOccurrenceIndex : gmap jsstring nat) : gmap jsstring nat :=
  match qaPairs with
  | [] => lastOccurrenceIndex
  | p :: rest =>
      firstPass rest (S i) (<[normalizedQuestion p := i]> lastOccurrenceIndex)
  end.

(** Second loop: [result.push(qaPairs[i])] when [lastIndex === i]. *)
Fixpoint secondPass (qaPairs : list QAPair) (i : nat)
    (lastOccurrenceIndex : gmap jsstring nat) : list QAPair :=
  match qaPairs with
  | [] => []
  | p :: rest =>
      if decide (lastOccurrenceIndex !! normalizedQuestion p = Some i)
      then p :: secondPass rest (S i) lastOccurrenceIndex
      else secondPass rest (S i) lastOccurrenceIndex
  end.

Definition deduplicateQAPairs (qaPairs : list QAPair) : list QAPair :=
  if length qaPairs =? 0 then qaPairs
  else secondPass qaPairs 0 (firstPass qaPairs 0 ∅).

(** The reading of the code's own doc comment, [A, B, A, C] -> [B, A, C]:
    an item is kept when no later item has the same normalized question. *)
Definition sameQuestion (p q : QAPair) : bool :=
  bool_decide (normalizedQuestion p = normalizedQuestion q).

Fixpoint keepLast (qaPairs : list QAPair) : list QAPair :=
  match qaPairs with
  | [] => []
  | p :: rest =>
      if existsb (sameQuestion p) rest then keepLast rest
      else p :: keepLast rest
  end.

(** The index of the last item of [qaPairs] whose normalized question is
    [k], when the head of [qaPairs] has index [i]. *)
Fixpoint lastIdx (k : jsstring) (qaPairs : list QAPair) (i : nat) : option nat :=
  match qaPairs with
  | [] => None
  | p :: rest =>
      match lastIdx k rest (S i) with
      | Some j => Some j
      | None => if bool_decide (normalizedQuestion p = k) then Some i else None
      end
  end.

End WithTables.
End Dedup.

(* ===================================================================== *)
(** ** qa-pairs-utils.ts: the addendum splitter and the extractor *)
(* ===================================================================== *)

Definition LF : N := 10%N.
Definition nl : jsstring := [LF].

Record QAExtraction := mkExtraction {
  qaPairs : list QAPair;
  opposingParty : OpposingParty;
  mode : QAMode
}.

Module QAUtils.
Import RegExp.

Definition flags_i : Flags := mkFlags true false.
Definition flags_is : Flags := mkFlags true true.
Definition flags_g : Flags := mkFlags false false.

Definition marker : jsstring := js "the counterparty has answered your question:".

(** [/\n\nthe counterparty has answered your question:.*$/is] *)
Definition counterpartyPattern : regex :=
  seqs [ Char LF; Char LF; lit marker; star AnyChar; AssertEnd ].

(** [/^the counterparty has answered your question:/i] *)
Definition counterpartyStart : regex :=
  seqs [ AssertStart; lit marker ].

Definition party : regex :=
  alts [ lit (js "buyer"); lit (js "seller"); lit (js "opposing party") ].

(** [/here are (\d+) vetting answers from the matched (buyer|seller|opposing party):/i] *)
Definition fullHeader : regex :=
  seqs [ lit (js "here are "); Group 1 (plus digit);
         lit (js " vetting answers from the matched "); Group 2 party;
         Char (cu ":") ].

(** [/\*\*(\d+)\.\s*([^*]+)\*\*\s*\n(ANSWER)/g], where ANSWER stands for
    [[^\n*]+(?:\n(?!\*\*\d+\.)[^\n*]+)*]: a first answer line, then every
    further line that does not open the next numbered entry. *)
Definition qaPattern : regex :=
  seqs [ lit (js "**"); Group 1 (plus digit); Char (cu "."); star space;
         Group 2 (plus (noneOf [cu "*"])); lit (js "**"); star space; Char LF;
         Group 3 (seqs [ plus (noneOf [LF; cu "*"]);
                         star (seqs [ Char LF;
                                      NegLookahead (seqs [ lit (js "**"); plus digit;
                                                           Char (cu ".") ]);
                                      plus (noneOf [LF; cu "*"]) ]) ]) ].

(** [/The matched (buyer|seller|opposing party) has answered (\d+) vetting questions?\./i] *)
Definition teaserHeader : regex :=
  seqs [ lit (js "The matched "); Group 1 party; lit (js " has answered ");
         Group 2 (plus digit); lit (js " vetting question"); opt (Char (cu "s"));
         Char (cu ".") ].

(** [/\*\*(\d+)\.\s*([^*]+?)\*\*/g] *)
Definition questionPattern : regex :=
  seqs [ lit (js "**"); Group 1 (plus digit); Char (cu "."); star space;
         Group 2 (plusLazy (noneOf [cu "*"])); lit (js "**") ].

Section WithTables.
Context {tables : UnicodeTables}.

(** [value] is [Some s] for a string, [None] for anything else. *)
Definition normalizeOpposingParty (value : option jsstring) : option OpposingParty :=
  match value with
  | None => None
  | Some s =>
      let v := JSString.toLowerCase (JSString.trim s) in
      if bool_decide (v = js "buyer") then Some buyer
      else if bool_decide (v = js "seller") then Some seller
      else None
  end.

Definition extractCounterpartyMessage (content : jsstring) : option jsstring :=
  if test flags_is counterpartyPattern content then
    let lastDoubleNewline := JSString.lastIndexOf content (nl ++ nl) in
    if bool_decide (lastDoubleNewline ≠ (-1)%Z) then
      let lastPart := JSString.substringFrom content (lastDoubleNewline + 2)%Z in
      if test flags_i counterpartyStart (JSString.trim lastPart)
      then Some (JSString.trim lastPart)
      else None
    else None
  else None.

(** [counterpartyMessage ? content.substring(0, content.lastIndexOf('\n\n')) : content] *)
Definition qaContentOf (content : jsstring) : jsstring :=
  match extractCounterpartyMessage content with
  | Some counterpartyMessage =>
      if JSString.truthy counterpartyMessage
      then JSString.substring content 0 (JSString.lastIndexOf content (nl ++ nl))
      else content
  | None => content
  end.

(** The party of a header match: the captured word when it is one of the
    two roles, else the hint, else ["buyer"]. *)
Definition partyOf (captured : option jsstring) (opposingPartyHint : option jsstring)
    : OpposingParty :=
  let capturedParty := JSString.toLowerCase <$> captured in
  if bool_decide (capturedParty = Some (js "buyer")) then buyer
  else if bool_decide (capturedParty = Some (js "seller")) then seller
  else default buyer (normalizeOpposingParty opposingPartyHint).

Definition capture (n : nat) (m : MatchResult) : jsstring :=
  default [] (group n m).

(** The loop over [qaPattern.exec(qaContent)]. *)
Definition fullEntries (qaContent : jsstring) : list QAPair :=
  map (fun m => mkQAPair (JSString.trim (capture 2 m)) (JSString.trim (capture 3 m)))
      (execAll flags_g qaPattern qaContent).

(** The loop over [questionPattern.exec(qaContent)]. *)
Definition teaserEntries (qaContent : jsstring) : list QAPair :=
  map (fun m => mkQAPair (JSString.trim (capture 2 m)) [])
      (execAll flags_g questionPattern qaContent).

(** The body of [parseQAPairsFromContent] once [qaContent] is fixed. *)
Definition parseQAContent (qaContent : jsstring)
    (opposingPartyHint : option jsstring) : option QAExtraction :=
  match matchFirst flags_i fullHeader qaContent with
  | Some fullHeaderMatch =>
      let opposingParty := partyOf (group 2 fullHeaderMatch) opposingPartyHint in
      let qaPairs := fullEntries qaContent in
      if length qaPairs =? 0 then None
      else Some (mkExtraction qaPairs opposingParty full)
  | None =>
      match matchFirst flags_i teaserHeader qaContent with
      | Some teaserHeaderMatch =>
          let opposingParty := partyOf (group 1 teaserHeaderMatch) opposingPartyHint in
          let qaPairs := teaserEntries qaContent in
          if length qaPairs =? 0 then None
          else Some (mkExtraction qaPairs opposingParty teaser)
      | None => None
      end
  end.

Definition parseQAPairsFromContent (content : jsstring)
    (opposingPartyHint : option jsstring) : option QAExtraction :=
  parseQAContent (qaContentOf content) opposingPartyHint.

Definition hasFullHeader (text : jsstring) : bool := test flags_i fullHeader text.
Definition hasTeaserHeader (text : jsstring) : bool := test flags_i teaserHeader text.

End WithTables.

(** The text after the last two consecutive line breaks; the whole text
    when there are none. *)
Definition lastSegment (content : jsstring) : jsstring :=
  let i := JSString.lastIndexOf content (nl ++ nl) in
  if bool_decide (i = (-1)%Z) then content
  else JSString.substringFrom content (i + 2)%Z.

(** Does the trimmed text begin with the marker phrase, the case of the
    letters A to Z apart? *)
Definition beginsWithMarker (segment : jsstring) : bool :=
  JSString.startsWith (map JSString.asciiLower (JSString.trim segment)) marker.

End QAUtils.

(* ===================================================================== *)
(** ** Messages, [JSON.stringify] and [getContentString] *)
(* ===================================================================== *)

Module JSON.

(** JSON values; numbers are the integers, printed in decimal. *)
#[local] Set Warnings "-register-all".
Inductive value :=
| Null
| Bool (b : bool)
| Number (z : Z)
| Str (s : jsstring)
| Array (items : list value)
| Object (fields : list (jsstring * value)).

Definition hexDigit (n : N) : N :=
  if (n <? 10)%N then (48 + n)%N else (87 + n)%N.

(** UnicodeEscape: a backslash, [u] and four hexadecimal digits. *)
Definition unicodeEscape (c : N) : jsstring :=
  [ 92; 117; hexDigit (c / 4096); hexDigit ((c / 256) mod 16);
    hexDigit ((c / 16) mod 16); hexDigit (c mod 16) ]%N.

(** U+D800 to U+DBFF, and U+DC00 to U+DFFF. *)
Definition isLeadingSurrogate (c : N) : bool := ((55296 <=? c) && (c <=? 56319))%N.
Definition isTrailingSurrogate (c : N) : bool := ((56320 <=? c) && (c <=? 57343))%N.

(** One code unit of QuoteJSONString that is not a surrogate. *)
Definition quoteChar (c : N) : jsstring :=
  let bs := 92%N in
  if (c =? 8)%N then [bs; cu "b"]
  else if (c =? 9)%N then [bs; cu "t"]
  else if (c =? 10)%N then [bs; cu "n"]
  else if (c =? 12)%N then [bs; cu "f"]
  else if (c =? 13)%N then [bs; cu "r"]
  else if (c =? 34)%N then [bs; c]
  else if (c =? 92)%N then [bs; c]
  else if (c <? 32)%N then unicodeEscape c
  else [c].

(** QuoteJSONString, without the two quotation marks: a surrogate pair is
    kept, a surrogate on its own is escaped. *)
Fixpoint quoteUnits (l : jsstring) : jsstring :=
  match l with
  | [] => []
  | c :: rest =>
      if isLeadingSurrogate c then
        match rest with
        | d :: rest' =>
            if isTrailingSurrogate d then c :: d :: quoteUnits rest'
            else unicodeEscape c ++ quoteUnits rest
        | [] => unicodeEscape c
        end
      else if isTrailingSurrogate c then unicodeEscape c ++ quoteUnits rest
      else quoteChar c ++ quoteUnits rest
  end.

Definition quote (s : jsstring) : jsstring :=
  let dq := 34%N in
  dq :: quoteUnits s ++ [dq].

Fixpoint stringify (v : value) : jsstring :=
  match v with
  | Null => js "null"
  | Bool true => js "true"
  | Bool false => js "false"
  | Number z => js (pretty z)
  | Str s => quote s
  | Array items =>
      js "[" ++ JSString.join (js ",") (map stringify items) ++ js "]"
  | Object fields =>
      js "{" ++ JSString.join (js ",")
                (map (fun kv => quote (fst kv) ++ js ":" ++ stringify (snd kv)) fields)
          ++ js "}"
  end.

End JSON.

Inductive MessageType := human | ai | tool | system.

#[global] Instance MessageType_eq_dec : EqDecision MessageType.
Proof. solve_decision. Defined.

(** A content block is a plain object, with its keys in arrival order. *)
Definition ContentBlock : Type := list (jsstring * JSON.value).

Inductive MessageContent :=
| ContentString (s : jsstring)
| ContentBlocks (blocks : list ContentBlock).

Record Message := mkMessage {
  msgId : option jsstring;
  msgType : MessageType;
  msgContent : MessageContent;
  msgName : option jsstring    (* [name] when it is a string *)
}.

Definition field (key : jsstring) (o : ContentBlock) : option JSON.value :=
  snd <$> find (fun kv => bool_decide (fst kv = key)) o.

Definition contentJSON (c : MessageContent) : JSON.value :=
  match c with
  | ContentString s => JSON.Str s
  | ContentBlocks blocks => JSON.Array (map JSON.Object blocks)
  end.

(** [c.type === "text"] *)
Definition isTextBlock (c : ContentBlock) : bool :=
  match field (js "type") c with
  | Some (JSON.Str t) => bool_decide (t = js "text")
  | _ => false
  end.

(** [c.text] of a text block; the declared type of the field is [string]. *)
Definition blockText (c : ContentBlock) : jsstring :=
  match field (js "text") c with
  | Some (JSON.Str s) => s
  | _ => []
  end.

(** utils.ts *)
Definition getContentString (content : MessageContent) : jsstring :=
  match content with
  | ContentString s => s
  | ContentBlocks blocks =>
      let texts := map blockText (List.filter isTextBlock blocks) in
      JSString.join (js " ") texts
  end.
(* ===================================================================== *)
(** ** providers/Stream.tsx: the session and the reconciled list *)
(* ===================================================================== *)

Module Stream.

(** [JSON.stringify(messages[messages.length - 1]?.content)] *)
Definition lastContent (messages : list Message) : option jsstring :=
  (fun m => JSON.stringify (contentJSON (msgContent m))) <$> last messages.

(** [effectiveMessages]: [streamValue.messages], [polledMessages] and
    [streamValue.isLoading] are its inputs. *)
Definition effectiveMessages (streamValueMessages polledMessages : option (list Message))
    (isLoading : bool) : list Message :=
  let streamMessages := default [] streamValueMessages in
  let polled := default [] polledMessages in
  if isLoading then streamMessages
  else if length streamMessages <? length polled then polled
  else if (length polled =? length streamMessages) && (0 <? length polled) then
    let streamLast := lastContent streamMessages in
    let polledLast := lastContent polled in
    if bool_decide (polledLast ≠ streamLast) then polled else streamMessages
  else streamMessages.

(** What a history request comes back with. *)
Inductive PollResponse :=
| FetchFailed                   (* [fetch] or [response.json()] throws *)
| NotOk                         (* [!response.ok] *)
| History (body : option (list (option (list Message)))).
    (* the parsed body: [None] when it is not an array; an entry is
       [values.messages] of a checkpoint, [None] when that is no array *)

Record Session := mkSession {
  threadId : option jsstring;
  polledMessages : option (list Message);
  lastPollRef : jsstring;
  streamMessages : option (list Message);
  isLoading : bool;
  inFlight : list jsstring   (* the [threadId] of every pending [refreshHistory] *)
}.

Definition initial : Session := mkSession None None [] None false [].

(** [JSON.stringify(newMessages.map(m => ({ id: m.id, content: m.content })))] *)
Definition pollHash (newMessages : list Message) : jsstring :=
  JSON.stringify (JSON.Array (map (fun m =>
    JSON.Object (match msgId m with
                 | Some i => [(js "id", JSON.Str i)]
                 | None => []
                 end ++ [(js "content", contentJSON (msgContent m))]))
    newMessages)).

(** [refreshHistory] up to its first [await]: the request leaves with the
    [threadId] of the closure. *)
Definition refreshHistory_request (s : Session) : Session :=
  match threadId s with
  | Some t =>
      if JSString.truthy t
      then mkSession (threadId s) (polledMessages s) (lastPollRef s)
             (streamMessages s) (isLoading s) (inFlight s ++ [t])
      else s
  | None => s
  end.

(** [refreshHistory] after the [await]s, on the state of that moment. *)
Definition refreshHistory_resume (r : PollResponse) (s : Session) : Session :=
  match r with
  | History (Some (latestState :: _)) =>
      match latestState with
      | Some newMessages =>
          if 0 <? length newMessages then
            let newHash := pollHash newMessages in
            if bool_decide (newHash ≠ lastPollRef s)
            then mkSession (threadId s) (Some newMessages) newHash
                   (streamMessages s) (isLoading s) (inFlight s)
            else s
          else s
      | None => s
      end
  | _ => s
  end.

Inductive Event :=
| StreamTick (messages : option (list Message)) (loading : bool)
| ThreadChange (newId : option jsstring)
| InitialTimeout
| PollInterval
| PollResolve (n : nat) (r : PollResponse).

Definition step (s : Session) (e : Event) : Session :=
  match e with
  | StreamTick messages loading =>
      mkSession (threadId s) (polledMessages s) (lastPollRef s)
        messages loading (inFlight s)
  | ThreadChange newId =>
      (* the effect on [threadId]: [setPolledMessages(null)],
         [lastPollRef.current] reset to the empty string *)
      mkSession newId None [] (streamMessages s) (isLoading s) (inFlight s)
  | InitialTimeout => refreshHistory_request s
  | PollInterval => if isLoading s then s else refreshHistory_request s
  | PollResolve n r =>
      match inFlight s !! n with
      | Some _ =>
          refreshHistory_resume r
            (mkSession (threadId s) (polledMessages s) (lastPollRef s)
               (streamMessages s) (isLoading s) (delete n (inFlight s)))
      | None => s
      end
  end.

Definition run (s : Session) (es : list Event) : Session := foldl step s es.

(** The list handed to the consumers of the context. *)
Definition output (s : Session) : list Message :=
  effectiveMessages (streamMessages s) (polledMessages s) (isLoading s).

Definition isThreadChange (e : Event) : bool :=
  match e with ThreadChange _ => true | _ => false end.

End Stream.

(* ===================================================================== *)
(** ** components/thread/index.tsx: detection and the cache *)
(* ===================================================================== *)

Module Thread.
Section WithTables.
Context {tables : UnicodeTables}.

(** The body of the loop of [detectedQAPairs], from the last message
    backwards; [messages] arrives reversed. *)
Fixpoint detectFromLast (reversed : list Message) : option QAExtraction :=
  match reversed with
  | [] => None
  | message :: earlier =>
      match msgType message with
      | ai =>
          let contentString := getContentString (msgContent message) in
          match QAUtils.parseQAPairsFromContent contentString (msgName message) with
          | Some parsed =>
              Some (mkExtraction (Dedup.deduplicateQAPairs (qaPairs parsed))
                      (opposingParty parsed) (mode parsed))
          | None => detectFromLast earlier
          end
      | _ => detectFromLast earlier
      end
  end.

Definition detectedQAPairs (messages : list Message) : option QAExtraction :=
  detectFromLast (rev messages).

Record View := mkView {
  viewThreadId : option jsstring;
  viewMessages : list Message;
  cachedQAPairs : option QAExtraction
}.

(** One commit of the component.  [newMessages] is [Some l] when the
    reconciled list changed; the effects run in the order of the source:
    first the clearing one (on [threadId]), then the caching one (on
    [detectedQAPairs]). *)
Definition commit (newThreadId : option jsstring) (newMessages : option (list Message))
    (v : View) : View :=
  let afterClear :=
    if bool_decide (newThreadId ≠ viewThreadId v) then None else cachedQAPairs v in
  match newMessages with
  | Some l =>
      mkView newThreadId l
        (match detectedQAPairs l with
         | Some detected => Some detected
         | None => afterClear
         end)
  | None => mkView newThreadId (viewMessages v) afterClear
  end.

(** Does the assistant message [m] yield an extraction? *)
Definition yieldsExtraction (m : Message) : Prop :=
  msgType m = ai /\
  QAUtils.parseQAPairsFromContent (getContentString (msgContent m)) (msgName m) <> None.

(** The updates of one session: the key stays, the list changes. *)
Definition updates (ls : list (list Message)) (v : View) : View :=
  foldl (fun v l => commit (viewThreadId v) (Some l) v) v ls.

End WithTables.
End Thread.

(* ===================================================================== *)
(** ** components/thread/messages/ai.tsx: what [AssistantMessage] renders *)
(* ===================================================================== *)

Module AI.
Section WithTables.
Context {tables : UnicodeTables}.

Inductive Rendered :=
| Nothing                              (* [return null] *)
| CounterpartyOnly (text : jsstring)   (* the addendum alone *)
| WholeContent (text : jsstring).      (* the message text *)

Definition AssistantMessage (message : option Message) : Rendered :=
  let content := default (ContentBlocks []) (msgContent <$> message) in
  let contentString := getContentString content in
  let isQAPairsMessage :=
    bool_decide (QAUtils.parseQAPairsFromContent contentString None ≠ None) in
  let counterpartyMessage := QAUtils.extractCounterpartyMessage contentString in
  let isToolResult := bool_decide (msgType <$> message = Some tool) in
  if isToolResult then Nothing
  else
    let trimmedContent := JSString.toLowerCase (JSString.trim contentString) in
    if negb (bool_decide (is_Some message)) || negb (JSString.truthy trimmedContent)
       || bool_decide (trimmedContent = js "null")
    then Nothing
    else
      match counterpartyMessage with
      | Some cm =>
          if isQAPairsMessage && JSString.truthy cm then CounterpartyOnly cm
          else if isQAPairsMessage then Nothing
          else WholeContent contentString
      | None =>
          if isQAPairsMessage then Nothing else WholeContent contentString
      end.

End WithTables.
End AI.

(* ===================================================================== *)
(** ** The wording of the specification, and the inputs of the examples *)
(* ===================================================================== *)

Module Spec.
Section WithTables.
Context {tables : UnicodeTables}.

Definition serializedContent (m : Message) : jsstring :=
  JSON.stringify (contentJSON (msgContent m)).

(** Section 4.1: the stream while it is active; else the poll when it is
    longer; else the poll when the lengths agree, are not zero, and the
    serialized contents of the final elements differ; else the stream. *)
Definition reconcile (streamList polledList : list Message)
    (isStreamActive : bool) : list Message :=
  if isStreamActive then streamList
  else if bool_decide (length streamList < length polledList) then polledList
  else if bool_decide (length polledList = length streamList
                       /\ length polledList <> 0
                       /\ serializedContent <$> last polledList
                          <> serializedContent <$> last streamList)
  then polledList
  else streamList.

(** Section 3: the length of the reconciled list never decreases over an
    update that is not a change of the session key. *)
Definition lengthNeverDecreases : Prop :=
  forall (es : list Stream.Event) (e : Stream.Event),
    Stream.isThreadChange e = false ->
    length (Stream.output (Stream.run Stream.initial es))
      <= length (Stream.output (Stream.run Stream.initial (es ++ [e]))).

(** Section 4.2, precedence: a text with a disclosed header, an entry the
    disclosed pattern can parse, and a teaser header gives the disclosed
    result, every item with an answer. *)
Definition disclosedWins (content : jsstring) : Prop :=
  QAUtils.hasFullHeader content = true ->
  QAUtils.fullEntries content <> [] ->
  QAUtils.hasTeaserHeader content = true ->
  exists r, QAUtils.parseQAPairsFromContent content None = Some r
            /\ mode r = full
            /\ Forall (fun p => answer p <> []) (qaPairs r).

(** Sections 4.1 and 5: the answer to a request that left under another
    key than the present one is dropped. *)
Definition staleAnswerDropped : Prop :=
  forall (es : list Stream.Event) (n : nat) (r : Stream.PollResponse) (key : jsstring),
    let s := Stream.run Stream.initial es in
    Stream.inFlight s !! n = Some key ->
    Stream.threadId s <> Some key ->
    Stream.polledMessages (Stream.step s (Stream.PollResolve n r))
    = Stream.polledMessages s.

End WithTables.
End Spec.

Definition textMessage (i : jsstring) (t : MessageType) (text : jsstring) : Message :=
  mkMessage (Some i) t (ContentString text) None.

(** Section 8, dedup example. *)
Definition ex_pets : list QAPair :=
  [ mkQAPair (js "Are pets allowed?") [];
    mkQAPair (js "Budget?") [];
    mkQAPair (js "are pets allowed?") (js "Yes") ].

(** Section 8, addendum isolation. *)
Definition ex_addendum : jsstring :=
  js "**1. Q?**" ++ nl ++ js "A" ++ nl ++ nl
    ++ js "the counterparty has answered your question: X".

Definition ex_header : jsstring :=
  js "here are 1 vetting answers from the matched buyer:" ++ nl.

(** Both headers, and an entry whose answer line is a single blank. *)
Definition ex_blank_answer : jsstring :=
  (js "The matched buyer has answered 1 vetting question. ")
    ++ js "here are 1 vetting answers from the matched buyer:" ++ nl
    ++ js "**1. Q?**" ++ nl ++ js " ".

(** Both headers, and an entry with an answer. *)
Definition ex_both_headers : jsstring :=
  js "The matched buyer has answered 1 vetting question. "
    ++ js "here are 1 vetting answers from the matched buyer:" ++ nl
    ++ js "**1. Q?**" ++ nl ++ js "A".

(** A teaser block, then an addendum that quotes a disclosed block. *)
Definition ex_quoted_header : jsstring :=
  js "The matched buyer has answered 1 vetting question." ++ nl
    ++ js "**1. Q?**" ++ nl ++ nl
    ++ js "the counterparty has answered your question: "
    ++ js "here are 1 vetting answers from the matched buyer:" ++ nl
    ++ js "**1. R?**" ++ nl ++ js "B".

(** A teaser header and a numbering without the bold markers. *)
Definition ex_teaser_only : jsstring :=
  js "The matched seller has answered 2 vetting questions." ++ nl
    ++ js "1. First?" ++ nl ++ js "2. Second?".

(** An assistant message that carries a disclosed block, and one that
    carries the text " Null ". *)
Definition ex_qa : Message :=
  mkMessage (Some (js "qa")) ai
    (ContentBlocks [[(js "type", JSON.Str (js "text"));
                     (js "text", JSON.Str (ex_header ++ js "**1. Q?**" ++ nl ++ js "A"))]])
    None.

Definition ex_null : Message := textMessage (js "n") ai (js " Null ").

Definition ex_m1 : Message := textMessage (js "m1") human (js "hello").
Definition ex_m2 : Message := textMessage (js "m2") ai (js "hi").
Definition ex_m3 : Message := textMessage (js "m3") human (js "more").
Definition ex_m4 : Message := textMessage (js "m4") human (js "again").

(** A session in which the poll has seen three turns and the stream one. *)
Definition ex_trace : list Stream.Event :=
  [ Stream.ThreadChange (Some (js "t1"));
    Stream.StreamTick (Some [ex_m1]) false;
    Stream.InitialTimeout;
    Stream.PollResolve 0 (Stream.History (Some [Some [ex_m1; ex_m2; ex_m3]])) ].

(** A request leaves under "t1" and the key changes before it is answered. *)
Definition ex_switch : list Stream.Event :=
  [ Stream.ThreadChange (Some (js "t1"));
    Stream.InitialTimeout;
    Stream.ThreadChange (Some (js "t2"));
    Stream.StreamTick (Some []) false ].

Definition ex_stale : Stream.Event :=
  Stream.PollResolve 0 (Stream.History (Some [Some [ex_m1; ex_m2]])).

(* ===================================================================== *)
(** ** components/thread/index.tsx: the transcript, the error toast and
       the submit handler *)
(* ===================================================================== *)

Module Transcript.

Definition typeName (t : MessageType) : jsstring :=
  match t with
  | human => js "human"
  | ai => js "ai"
  | tool => js "tool"
  | system => js "system"
  end.

Section WithPrefix.
(** The constant of [lib/ensure-tool-responses], a file that is not part of
    the sources at hand. *)
Variable DO_NOT_RENDER_ID_PREFIX : jsstring.

(** [m.id?.startsWith(DO_NOT_RENDER_ID_PREFIX)] as a condition *)
Definition hiddenId (m : Message) : bool :=
  match msgId m with
  | Some i => JSString.startsWith i DO_NOT_RENDER_ID_PREFIX
  | None => false
  end.

(** The predicate of [messages.filter]. *)
Definition shown (m : Message) : bool :=
  negb (hiddenId m) && negb (bool_decide (msgType m = tool)).

(** [msg.id || `${msg.type}-${i}`] *)
Definition messageKey (i : nat) (msg : Message) : jsstring :=
  match msgId msg with
  | Some k => if JSString.truthy k then k
              else typeName (msgType msg) ++ js "-" ++ js (pretty i)
  | None => typeName (msgType msg) ++ js "-" ++ js (pretty i)
  end.

(** One round of the loop [for (i = filtered.length - 1; i >= 0; i--)]:
    the state is [seen] and [deduplicated]; [unshift] puts the message in
    front. *)
Definition dedupStep (im : nat * Message) (st : gset jsstring * list Message)
    : gset jsstring * list Message :=
  let key := messageKey (fst im) (snd im) in
  if decide (key ∈ fst st) then st
  else ({[ key ]} ∪ fst st, snd im :: snd st).

Definition indexed (filtered : list Message) : list (nat * Message) :=
  zip (seq 0 (length filtered)) filtered.

(** The loop runs from the last index down: a right fold. *)
Definition deduplicated (filtered : list Message) : list Message :=
  snd (foldr dedupStep (∅, []) (indexed filtered)).

(** The list that is mapped to [HumanMessage] and [AssistantMessage]. *)
Definition transcript (messages : list Message) : list Message :=
  deduplicated (List.filter shown messages).

(** The keys of a list whose head has index [i]. *)
Fixpoint keysFrom (i : nat) (l : list Message) : list jsstring :=
  match l with
  | [] => []
  | m :: rest => messageKey i m :: keysFrom (S i) rest
  end.

(** The messages of [l] that no later message of [l] shares its key with. *)
Fixpoint lastOfKey (i : nat) (l : list Message) : list Message :=
  match l with
  | [] => []
  | m :: rest =>
      if decide (messageKey i m ∈ keysFrom (S i) rest) then lastOfKey (S i) rest
      else m :: lastOfKey (S i) rest
  end.

End WithPrefix.

(** The message has an id that is not the empty string. *)
Definition hasId (m : Message) : Prop :=
  exists k, msgId m = Some k /\ k <> [].

End Transcript.

Module ErrorToast.

(** [stream.error]: [None] when there is no error; else the [message] of the
    error, [None] when it has none. *)
Definition StreamError : Type := option (option jsstring).

(** The effect on [stream.error]: the new [lastError.current] and the
    message of the toast, if one is shown. *)
Definition errorEffect (lastError : option jsstring) (error : StreamError)
    : option jsstring * option jsstring :=
  match error with
  | None => (None, None)
  | Some None => (lastError, None)
  | Some (Some message) =>
      if negb (JSString.truthy message) || bool_decide (lastError = Some message)
      then (lastError, None)
      else (Some message, Some message)
  end.

(** The toasts of a sequence of values of [stream.error], oldest first. *)
Fixpoint toasts (lastError : option jsstring) (errors : list StreamError) : list jsstring :=
  match errors with
  | [] => []
  | e :: rest =>
      match errorEffect lastError e with
      | (lastError', Some message) => message :: toasts lastError' rest
      | (lastError', None) => toasts lastError' rest
      end
  end.

Fixpoint lastErrorAfter (lastError : option jsstring) (errors : list StreamError)
    : option jsstring :=
  match errors with
  | [] => lastError
  | e :: rest => lastErrorAfter (fst (errorEffect lastError e)) rest
  end.

End ErrorToast.

Module Submit.

(** [{ type: "text", text: input }] *)
Definition textBlock (input : jsstring) : ContentBlock :=
  [ (js "type", JSON.Str (js "text")); (js "text", JSON.Str input) ].

(** The [content] of [newHumanMessage]. *)
Definition newContent (input : jsstring) (contentBlocks : list ContentBlock)
    : MessageContent :=
  ContentBlocks
    ((if 0 <? length (JSString.trim input) then [textBlock input] else [])
       ++ contentBlocks).

Record Submission := mkSubmission {
  newHumanMessage : Message;
  submitted : list Message;       (* [messages] of the submitted update *)
  optimistic : list Message       (* [messages] of [optimisticValues(prev)] *)
}.

(** [handleSubmit]: [uuid] is the value of [uuidv4()], [toolMessages] that of
    [ensureToolCallsHaveResponses(stream.messages)], [prev] is
    [prev.messages]; the time stamp of the message is not modelled. *)
Definition handleSubmit (uuid input : jsstring) (contentBlocks : list ContentBlock)
    (isLoading : bool) (toolMessages : list Message) (prev : option (list Message))
    : option Submission :=
  if ((length (JSString.trim input) =? 0) && (length contentBlocks =? 0))
     || isLoading
  then None
  else
    let newHumanMessage :=
      mkMessage (Some uuid) human (newContent input contentBlocks) None in
    Some (mkSubmission newHumanMessage
            (toolMessages ++ [newHumanMessage])
            (default [] prev ++ toolMessages ++ [newHumanMessage])).

End Submit.

(* ===================================================================== *)
(** ** qa-pairs-floating.tsx and qa-pairs-display.tsx: the expanded items *)
(* ===================================================================== *)

Module QAPanel.

(** [new Set(qaPairs.map((_, i) => i))] *)
Definition allItems (qaPairsLength : nat) : gset nat :=
  list_to_set (seq 0 qaPairsLength).

Definition toggleItem (index : nat) (expandedItems : gset nat) : gset nat :=
  if decide (index ∈ expandedItems) then expandedItems ∖ {[ index ]}
  else {[ index ]} ∪ expandedItems.

Definition toggleAll (qaPairsLength : nat) (expandedItems : gset nat) : gset nat :=
  if size expandedItems =? qaPairsLength then ∅
  else allItems qaPairsLength.

(** The button says "Collapse" when this holds, "Expand" otherwise. *)
Definition saysCollapse (qaPairsLength : nat) (expandedItems : gset nat) : bool :=
  size expandedItems =? qaPairsLength.

Inductive Click :=
| ClickItem (index : nat)
| ClickAll.

Definition click (qaPairsLength : nat) (expandedItems : gset nat) (c : Click)
    : gset nat :=
  match c with
  | ClickItem index => toggleItem index expandedItems
  | ClickAll => toggleAll qaPairsLength expandedItems
  end.

(** A click on an item comes from one of the rendered cards. *)
Definition validClick (qaPairsLength : nat) (c : Click) : Prop :=
  match c with
  | ClickItem index => index < qaPairsLength
  | ClickAll => True
  end.

Definition clicks (qaPairsLength : nat) (cs : list Click) : gset nat :=
  foldl (click qaPairsLength) (allItems qaPairsLength) cs.

(** [question{qaPairs.length !== 1 ? "s" : ""}] *)
Definition questionWord (qaPairsLength : nat) : jsstring :=
  js "question" ++ (if qaPairsLength =? 1 then [] else js "s").

End QAPanel.

(* ===================================================================== *)
(** ** providers/Stream.tsx: the values [StreamProvider] settles on *)
(* ===================================================================== *)

Module Provider.

Record Settings := mkSettings {
  envApiUrl : option jsstring;        (* [process.env.NEXT_PUBLIC_API_URL] *)
  envAssistantId : option jsstring;   (* [process.env.NEXT_PUBLIC_ASSISTANT_ID] *)
  apiUrl : jsstring;                  (* the state of [useQueryState("apiUrl")] *)
  assistantId : jsstring              (* the state of [useQueryState("assistantId")] *)
}.

Definition truthy (v : option jsstring) : bool :=
  match v with
  | Some s => JSString.truthy s
  | None => false
  end.

(** [a || b] for a string [a] *)
Definition orElse (a : jsstring) (b : option jsstring) : option jsstring :=
  if JSString.truthy a then Some a else b.

Definition hasEnvVars (c : Settings) : bool :=
  truthy (envApiUrl c) && truthy (envAssistantId c).

Definition finalApiUrl (c : Settings) : option jsstring :=
  if hasEnvVars c then envApiUrl c else orElse (apiUrl c) (envApiUrl c).

Definition finalAssistantId (c : Settings) : option jsstring :=
  if hasEnvVars c then envAssistantId c
  else orElse (assistantId c) (envAssistantId c).

(** The condition under which the form is returned instead of
    [StreamSession]. *)
Definition showsForm (c : Settings) : bool :=
  negb (hasEnvVars c)
  && (negb (truthy (finalApiUrl c)) || negb (truthy (finalAssistantId c))).

End Provider.

(* ===================================================================== *)
(** ** providers/Stream.tsx: what the session keeps *)
(* ===================================================================== *)

Module StreamInvariant.
Import Stream.

(** [lastPollRef.current] is the hash of the polled list; it is the empty
    string while there is none. *)
Definition hashInvariant (s : Session) : Prop :=
  match polledMessages s with
  | None => lastPollRef s = []
  | Some ms => ms <> [] /\ lastPollRef s = pollHash ms
  end.

(** The responses [refreshHistory] can take a list from: a body that is an
    array whose first entry has a non-empty array of messages. *)
Definition usable (r : PollResponse) : Prop :=
  exists ms rest, r = History (Some (Some ms :: rest)) /\ ms <> [].

End StreamInvariant.

(* ===================================================================== *)
(** ** The tables of the examples *)
(* ===================================================================== *)

(** Tables that leave every code unit above 127 as it is.  The examples
    below run with them; their texts hold, above 127, only white space,
    which has no case.  The theorems hold for every choice of tables. *)
#[global] Instance plainTables : UnicodeTables := {|
  toLowerCaseUnicode := fun s => s;
  toUpperCaseUnit := fun ch => ch;
  toLowerCaseUnicode_nonempty := fun s Hs => Hs
|}.

(* ===================================================================== *)
(** * Properties of the deduplicator *)
(* ===================================================================== *)

Section DedupTheory.
Import Dedup.
Context {tables : UnicodeTables}.

Lemma firstPass_lookup (l : list QAPair) : forall i (m : gmap jsstring nat) k,
  firstPass l i m !! k =
    match lastIdx k l i with Some j => Some j | None => m !! k end.
Proof.
  induction l as [|p rest IH]; intros i m k; simpl; [done|].
  rewrite IH. destruct (lastIdx k rest (S i)) as [j|]; [done|].
  rewrite lookup_insert. repeat case_decide; try done.
  all: rewrite bool_decide_decide; case_decide; congruence.
Qed.

Lemma lastIdx_ge k (l : list QAPair) : forall i j, lastIdx k l i = Some j -> i <= j.
Proof.
  induction l as [|p rest IH]; intros i j; simpl; [done|].
  destruct (lastIdx k rest (S i)) as [j'|] eqn:E.
  - intros [= <-]. apply IH in E. lia.
  - case_bool_decide; [intros [= <-]; lia | done].
Qed.

Lemma lastIdx_later (p : QAPair) (rest : list QAPair) i :
  existsb (sameQuestion p) rest = true <->
  is_Some (lastIdx (normalizedQuestion p) rest i).
Proof.
  revert i. induction rest as [|q rest IH]; intros i; simpl.
  - split; [done | intros [? ?]; done].
  - rewrite orb_true_iff, (IH (S i)). unfold sameQuestion.
    destruct (lastIdx (normalizedQuestion p) rest (S i)) as [j|].
    + split; eauto.
    + case_bool_decide as E.
      * rewrite bool_decide_eq_true_2 by done. split; eauto.
      * rewrite bool_decide_eq_false_2 by congruence.
        split; [intros [?|[? ?]]; done | intros [? ?]; done].
Qed.

Lemma secondPass_keepLast (l : list QAPair) : forall i (m : gmap jsstring nat),
  (forall k j, lastIdx k l i = Some j -> m !! k = Some j) ->
  secondPass l i m = keepLast l.
Proof.
  induction l as [|p rest IH]; intros i m Hm; simpl; [done|].
  assert (Hrest : forall k j, lastIdx k rest (S i) = Some j -> m !! k = Some j).
  { intros k j E. apply Hm. simpl. by rewrite E. }
  rewrite (IH (S i) m Hrest).
  destruct (existsb (sameQuestion p) rest) eqn:Ex.
  - apply (lastIdx_later p rest (S i)) in Ex as [j E].
    rewrite (Hrest _ _ E). apply lastIdx_ge in E.
    case_decide as Hj; [|done]. injection Hj as ->. lia.
  - assert (E : lastIdx (normalizedQuestion p) rest (S i) = None).
    { destruct (lastIdx (normalizedQuestion p) rest (S i)) eqn:E; [|done].
      assert (existsb (sameQuestion p) rest = true) as Ht
        by (apply (lastIdx_later p rest (S i)); rewrite E; eauto).
      congruence. }
    rewrite (Hm (normalizedQuestion p) i).
    + by rewrite decide_True.
    + simpl. rewrite E. by rewrite bool_decide_eq_true_2.
Qed.

(** The two loops over the index map compute [keepLast]. *)
Lemma deduplicateQAPairs_keepLast (l : list QAPair) :
  deduplicateQAPairs l = keepLast l.
Proof.
  unfold deduplicateQAPairs. destruct l as [|p rest]; [done|].
  change (length (p :: rest) =? 0) with false. cbv iota.
  apply secondPass_keepLast. intros k j E.
  rewrite firstPass_lookup. by rewrite E.
Qed.

Lemma keepLast_sublist (l : list QAPair) : sublist (keepLast l) l.
Proof.
  induction l as [|p rest IH]; simpl; [constructor|].
  destruct (existsb (sameQuestion p) rest); by constructor.
Qed.

Lemma existsb_sameQuestion (p : QAPair) (l : list QAPair) :
  existsb (sameQuestion p) l = true <->
  normalizedQuestion p ∈ normalizedQuestion <$> l.
Proof.
  induction l as [|q rest IH]; simpl.
  - split; [done | by intros ?%elem_of_nil].
  - rewrite orb_true_iff, IH, elem_of_cons. unfold sameQuestion.
    by rewrite bool_decide_eq_true.
Qed.

Lemma keepLast_keys (l : list QAPair) k :
  k ∈ normalizedQuestion <$> keepLast l <-> k ∈ normalizedQuestion <$> l.
Proof.
  induction l as [|p rest IH]; simpl; [done|].
  destruct (existsb (sameQuestion p) rest) eqn:Ex; simpl.
  - rewrite IH, elem_of_cons. apply existsb_sameQuestion in Ex.
    split; [by right | by intros [->|?]].
  - by rewrite !elem_of_cons, IH.
Qed.

Lemma keepLast_NoDup (l : list QAPair) :
  NoDup (normalizedQuestion <$> keepLast l).
Proof.
  induction l as [|p rest IH]; simpl; [constructor|].
  destruct (existsb (sameQuestion p) rest) eqn:Ex; simpl; [done|].
  constructor; [|done]. rewrite keepLast_keys.
  intros Hin%existsb_sameQuestion. congruence.
Qed.

Lemma keepLast_last (l : list QAPair) p :
  p ∈ keepLast l ->
  exists l1 l2, l = l1 ++ p :: l2 /\
    Forall (fun q => normalizedQuestion q <> normalizedQuestion p) l2.
Proof.
  induction l as [|q rest IH]; simpl; [by intros ?%elem_of_nil|].
  destruct (existsb (sameQuestion q) rest) eqn:Ex.
  - intros (l1 & l2 & -> & H)%IH. by exists (q :: l1), l2.
  - intros [<-|Hin]%elem_of_cons.
    + exists [], rest. split; [done|]. apply Forall_forall. intros x Hx Heq.
      assert (existsb (sameQuestion p) rest = true); [|congruence].
      apply existsb_sameQuestion. rewrite <- Heq.
      by apply list_elem_of_fmap_2.
    + apply IH in Hin as (l1 & l2 & -> & H). by exists (q :: l1), l2.
Qed.

Lemma keepLast_id (l : list QAPair) :
  NoDup (normalizedQuestion <$> l) -> keepLast l = l.
Proof.
  induction l as [|p rest IH]; simpl; [done|].
  intros [Hnotin Hnd]%NoDup_cons. rewrite IH by done.
  destruct (existsb (sameQuestion p) rest) eqn:Ex; [|done].
  by apply existsb_sameQuestion in Ex.
Qed.

(** The questions of the output are those of the input without the
    earlier duplicates. *)
Lemma deduplicateQAPairs_keys (l : list QAPair) :
  normalizedQuestion <$> deduplicateQAPairs l
  = remove_dups (normalizedQuestion <$> l).
Proof.
  rewrite deduplicateQAPairs_keepLast.
  induction l as [|p rest IH]; simpl; [done|].
  destruct (decide_rel _ _ _) as [Hin|Hnin];
    destruct (existsb (sameQuestion p) rest) eqn:Ex; simpl.
  - done.
  - apply existsb_sameQuestion in Hin. congruence.
  - by apply existsb_sameQuestion in Ex.
  - f_equal. exact IH.
Qed.

(** C2, as amended.  The output is the input without every item that a
    later item shares its normalized question with ([keepLast]): an item is
    kept at its place exactly when it is the last occurrence of its
    question.  So the output has one entry per distinct normalized
    question, every entry is the last occurrence of its question with the
    text and the answer of that occurrence, and the entries stand in the
    order of those last occurrences.  On the example of section 8 the
    output is "Budget?" with its empty answer, then "are pets allowed?" with
    the answer "Yes". *)
Theorem deduplicateQAPairs_last_occurrences (l : list QAPair) :
  deduplicateQAPairs l = keepLast l
  /\ (forall p rest,
        deduplicateQAPairs (p :: rest)
        = if bool_decide (normalizedQuestion p ∈ normalizedQuestion <$> rest)
          then deduplicateQAPairs rest
          else p :: deduplicateQAPairs rest)
  /\ NoDup (normalizedQuestion <$> deduplicateQAPairs l)
  /\ (forall k, k ∈ normalizedQuestion <$> deduplicateQAPairs l
                <-> k ∈ normalizedQuestion <$> l)
  /\ sublist (deduplicateQAPairs l) l
  /\ (forall p, p ∈ deduplicateQAPairs l ->
        exists l1 l2, l = l1 ++ p :: l2 /\
          Forall (fun q => normalizedQuestion q <> normalizedQuestion p) l2)
  /\ deduplicateQAPairs ex_pets
     = [ mkQAPair (js "Budget?") []; mkQAPair (js "are pets allowed?") (js "Yes") ].
Proof.
  split_and!.
  - apply deduplicateQAPairs_keepLast.
  - intros p rest. rewrite !deduplicateQAPairs_keepLast. simpl.
    destruct (existsb (sameQuestion p) rest) eqn:Ex.
    + apply existsb_sameQuestion in Ex. by rewrite bool_decide_eq_true_2.
    + rewrite bool_decide_eq_false_2; [done|].
      intros Hin%existsb_sameQuestion. congruence.
  - rewrite deduplicateQAPairs_keepLast. apply keepLast_NoDup.
  - rewrite deduplicateQAPairs_keepLast. apply keepLast_keys.
  - rewrite deduplicateQAPairs_keepLast. apply keepLast_sublist.
  - rewrite deduplicateQAPairs_keepLast. apply keepLast_last.
  - by vm_compute.
Qed.

(** C9.  Running the deduplicator on its own output changes nothing. *)
Theorem deduplicateQAPairs_idempotent (l : list QAPair) :
  deduplicateQAPairs (deduplicateQAPairs l) = deduplicateQAPairs l.
Proof.
  rewrite !deduplicateQAPairs_keepLast.
  apply keepLast_id, keepLast_NoDup.
Qed.

End DedupTheory.

Lemma deduplicateQAPairs_last_occurrences_witness :
  Dedup.deduplicateQAPairs
    [ mkQAPair (js "A") (js "1"); mkQAPair (js "B") (js "2"); mkQAPair (js " a ") (js "3") ]
  = [ mkQAPair (js "B") (js "2"); mkQAPair (js " a ") (js "3") ].
Proof.
  destruct (deduplicateQAPairs_last_occurrences
              [ mkQAPair (js "A") (js "1"); mkQAPair (js "B") (js "2");
                mkQAPair (js " a ") (js "3") ]) as (Heq & _).
  rewrite Heq. by vm_compute.
Defined.

(** C2, as stated, fails on its own example: the entry for the pets
    question is not at the first slot, and it carries the text of the last
    occurrence. *)
Lemma deduplicateQAPairs_not_first_slot :
  Dedup.deduplicateQAPairs ex_pets
  <> [ mkQAPair (js "Are pets allowed?") (js "Yes"); mkQAPair (js "Budget?") [] ].
Proof. vm_compute. discriminate. Qed.
(* ===================================================================== *)
(** * Properties of the session reconciler *)
(* ===================================================================== *)

Section ReconcilerTheory.
Import Stream.

(** C1.  The reconciled list is the one section 4.1 describes: the stream
    list while the stream is active; else the polled list when it is
    strictly longer; else the polled list when both have the same non-zero
    length and the serialized contents of their last elements differ; else
    the stream list.  A list that is still [null] counts as empty. *)
Theorem effectiveMessages_reconcile
    (streamList polledList : option (list Message)) (isStreamActive : bool) :
  effectiveMessages streamList polledList isStreamActive
  = Spec.reconcile (default [] streamList) (default [] polledList) isStreamActive.
Proof.
  unfold effectiveMessages, Spec.reconcile, lastContent, Spec.serializedContent.
  set (s := default [] streamList). set (p := default [] polledList).
  destruct isStreamActive; [done|].
  destruct (length s <? length p) eqn:Hlt.
  - apply Nat.ltb_lt in Hlt.
    by rewrite (bool_decide_eq_true_2 (length s < length p)) by lia.
  - apply Nat.ltb_ge in Hlt.
    rewrite (bool_decide_eq_false_2 (length s < length p)) by lia.
    destruct (length p =? length s) eqn:Heq; simpl.
    + apply Nat.eqb_eq in Heq. destruct (0 <? length p) eqn:Hpos.
      * apply Nat.ltb_lt in Hpos.
        destruct (bool_decide (_ <$> last p ≠ _ <$> last s)) eqn:Hne.
        -- apply bool_decide_eq_true in Hne.
           rewrite bool_decide_eq_true_2; [done|]. repeat split; [done|lia|done].
        -- apply bool_decide_eq_false in Hne.
           rewrite bool_decide_eq_false_2; [done|]. intros (_ & _ & ?). done.
      * apply Nat.ltb_ge in Hpos. rewrite bool_decide_eq_false_2; [done|].
        intros (_ & ? & _). lia.
    + apply Nat.eqb_neq in Heq. rewrite bool_decide_eq_false_2; [done|].
      intros (? & _ & _). done.
Qed.

(** Section 8, reconciler freshness: three stream turns against five
    polled ones. *)
Lemma reconciler_freshness (a b c d e f g h : Message) :
  effectiveMessages (Some [a; b; c]) (Some [d; e; f; g; h]) false = [d; e; f; g; h]
  /\ effectiveMessages (Some [a; b; c]) (Some [d; e; f; g; h]) true = [a; b; c].
Proof. done. Qed.

Lemma effectiveMessages_idle_length (s p : option (list Message)) :
  length (effectiveMessages s p false)
  = Nat.max (length (default [] s)) (length (default [] p)).
Proof.
  unfold effectiveMessages.
  set (sl := default [] s). set (pl := default [] p).
  destruct (length sl <? length pl) eqn:Hlt.
  - apply Nat.ltb_lt in Hlt. lia.
  - apply Nat.ltb_ge in Hlt.
    destruct (length pl =? length sl) eqn:Heq; simpl.
    + apply Nat.eqb_eq in Heq.
      destruct (0 <? length pl); [case_bool_decide|]; lia.
    + lia.
Qed.

Lemma effectiveMessages_active (s p : option (list Message)) :
  effectiveMessages s p true = default [] s.
Proof. done. Qed.

(** C3, as amended.  Take an update under which neither list gets shorter.
    After it the output is the stream list when the stream is active, and
    as long as the longer of the two lists when it is not.  The length of
    the output does not decrease when the stream was active before the
    update or is not active after it.  When the update turns the stream
    from not active to active, the output gets shorter exactly when the new
    stream list is shorter than the polled list was. *)
Theorem output_length_monotone_unless_activated (s s' : Session) :
  length (default [] (streamMessages s)) <= length (default [] (streamMessages s')) ->
  length (default [] (polledMessages s)) <= length (default [] (polledMessages s')) ->
  (isLoading s' = true -> output s' = default [] (streamMessages s'))
  /\ (isLoading s' = false ->
        length (output s') = Nat.max (length (default [] (streamMessages s')))
                                     (length (default [] (polledMessages s'))))
  /\ (isLoading s = true \/ isLoading s' = false ->
        length (output s) <= length (output s'))
  /\ (isLoading s = false -> isLoading s' = true ->
        (length (output s') < length (output s)
         <-> length (default [] (streamMessages s'))
             < length (default [] (polledMessages s)))).
Proof.
  intros Hstream Hpolled. unfold output. split_and!.
  - intros ->. apply effectiveMessages_active.
  - intros ->. apply effectiveMessages_idle_length.
  - destruct (isLoading s) eqn:Hs, (isLoading s') eqn:Hs'; intros [?|?]; try done;
      rewrite ?effectiveMessages_active, ?effectiveMessages_idle_length; lia.
  - intros -> ->.
    rewrite effectiveMessages_active, effectiveMessages_idle_length. lia.
Qed.

Lemma output_length_monotone_unless_activated_witness :
  let s := run initial ex_trace in
  let s' := step s (StreamTick (Some [ex_m1; ex_m4]) true) in
  isLoading s = false /\ isLoading s' = true
  /\ output s' = [ex_m1; ex_m4]
  /\ (length (output s') < length (output s) <-> 2 < 3).
Proof.
  intros s s'.
  destruct (output_length_monotone_unless_activated s s'
              (le_S 1 1 (le_n 1)) (le_n 3)) as (Hactive & _ & _ & Hshrink).
  split_and!; [done | done | exact (Hactive eq_refl) | exact (Hshrink eq_refl eq_refl)].
Defined.

(** C3, as stated, fails: the poll has shown three turns, then a submit
    makes the stream active with two, and the output drops to two. *)
Lemma output_length_can_shrink : ~ Spec.lengthNeverDecreases.
Proof.
  intros H.
  specialize (H ex_trace (StreamTick (Some [ex_m1; ex_m4]) true) eq_refl).
  vm_compute in H. lia.
Qed.

(** In the same update the assistant turn "m2", which was on display,
    leaves the output. *)
Lemma assistant_turn_can_disappear :
  let s := run initial ex_trace in
  let s' := step s (StreamTick (Some [ex_m1; ex_m4]) true) in
  output s = [ex_m1; ex_m2; ex_m3] /\ output s' = [ex_m1; ex_m4].
Proof. by vm_compute. Qed.

(** C4.  The request of [ex_switch] left under "t1"; the key is "t2" when
    it is answered, and the answer is stored and shown all the same. *)
Theorem stale_poll_is_applied :
  let s := run initial ex_switch in
  let s' := step s ex_stale in
  inFlight s = [js "t1"]
  /\ threadId s = Some (js "t2")
  /\ polledMessages s = None
  /\ threadId s' = Some (js "t2")
  /\ polledMessages s' = Some [ex_m1; ex_m2]
  /\ output s' = [ex_m1; ex_m2].
Proof. vm_compute. done. Qed.

Lemma stale_answer_not_dropped : ~ Spec.staleAnswerDropped.
Proof.
  intros H.
  specialize (H ex_switch 0 (History (Some [Some [ex_m1; ex_m2]])) (js "t1")
                eq_refl).
  vm_compute in H. by specialize (H ltac:(discriminate)).
Qed.

End ReconcilerTheory.
(* ===================================================================== *)
(** * Properties of the Q/A cache *)
(* ===================================================================== *)

Section CacheTheory.
Import Thread.
Context {tables : UnicodeTables}.

Lemma detectFromLast_None (l : list Message) :
  detectFromLast l = None <-> forall m, m ∈ l -> ~ yieldsExtraction m.
Proof.
  unfold yieldsExtraction. induction l as [|m rest IH]; simpl.
  - split; [intros _ m Hm%elem_of_nil; done | done].
  - destruct (msgType m) eqn:Ht;
      try (rewrite IH; split;
           [ intros H x [->|Hx]%elem_of_cons; [intros [? _]; congruence | by apply H]
           | intros H x Hx; apply H; by right ]).
    destruct (QAUtils.parseQAPairsFromContent _ _) eqn:Hp.
    + split; [done|]. intros H. exfalso. apply (H m); [by left|].
      split; [done | congruence].
    + rewrite IH. split.
      * intros H x [->|Hx]%elem_of_cons; [intros [_ ?]; congruence | by apply H].
      * intros H x Hx. apply H. by right.
Qed.

Lemma detectedQAPairs_None (l : list Message) :
  detectedQAPairs l = None <-> forall m, m ∈ l -> ~ yieldsExtraction m.
Proof.
  unfold detectedQAPairs. rewrite detectFromLast_None.
  split; intros H m Hm%list_elem_of_In; apply H, list_elem_of_In.
  - by apply in_rev in Hm.
  - by apply in_rev.
Qed.

Lemma updates_keep_cache (ls : list (list Message)) : forall v,
  Forall (fun l => forall m, m ∈ l -> ~ yieldsExtraction m) ls ->
  cachedQAPairs (updates ls v) = cachedQAPairs v
  /\ viewThreadId (updates ls v) = viewThreadId v.
Proof.
  induction ls as [|l ls IH]; intros v Hall; [done|].
  change (updates (l :: ls) v) with (updates ls (commit (viewThreadId v) (Some l) v)).
  apply Forall_cons in Hall as [Hl Hls].
  destruct (IH (commit (viewThreadId v) (Some l) v) Hls) as [-> ->].
  apply detectedQAPairs_None in Hl. unfold commit. rewrite Hl. simpl.
  by rewrite bool_decide_eq_false_2 by (intros ?; done).
Qed.

(** C5.  Once a reconciled list has given an extraction [d], the cache
    holds [d] through every later update of the same session in which no
    assistant message yields an extraction.  A commit empties a filled
    cache only when the session key changes, and a commit with a new key
    leaves in the cache nothing but what the list of that commit yields. *)
Theorem cache_persistence (v : View) :
  (forall key l d ls,
      detectedQAPairs l = Some d ->
      Forall (fun l' => forall m, m ∈ l' -> ~ yieldsExtraction m) ls ->
      cachedQAPairs (updates ls (commit key (Some l) v)) = Some d)
  /\ (forall key l,
      is_Some (cachedQAPairs v) ->
      cachedQAPairs (commit key l v) = None ->
      key <> viewThreadId v)
  /\ (forall key l,
      key <> viewThreadId v ->
      cachedQAPairs (commit key l v) = l ≫= detectedQAPairs).
Proof.
  split_and!.
  - intros key l d ls Hd Hls.
    destruct (updates_keep_cache ls (commit key (Some l) v) Hls) as [-> _].
    unfold commit. by rewrite Hd.
  - intros key l [d Hd] Hnone ->. unfold commit in Hnone.
    rewrite bool_decide_eq_false_2 in Hnone by (intros ?; done).
    destruct l as [l|]; simpl in Hnone; [destruct (detectedQAPairs l)|]; congruence.
  - intros key l Hkey. unfold commit. rewrite bool_decide_eq_true_2 by done.
    destruct l as [l|]; simpl; [by destruct (detectedQAPairs l) | done].
Qed.

End CacheTheory.

Lemma cache_persistence_witness :
  let v := Thread.mkView (Some (js "t1")) [] None in
  Thread.cachedQAPairs (Thread.updates [[ex_m1]; [ex_m1; ex_m3]] (Thread.commit (Some (js "t1")) (Some [ex_m1; ex_qa]) v))
  = Some (mkExtraction [mkQAPair (js "Q?") (js "A")] buyer full)
  /\ Thread.cachedQAPairs (Thread.commit (Some (js "t2")) None
                      (Thread.commit (Some (js "t1")) (Some [ex_m1; ex_qa]) v)) = None.
Proof.
  intros v. split.
  - apply (proj1 (cache_persistence v) (Some (js "t1")) [ex_m1; ex_qa]); [by vm_compute|].
    repeat constructor; apply detectedQAPairs_None; by vm_compute.
  - apply (proj2 (proj2 (cache_persistence (Thread.commit (Some (js "t1")) (Some [ex_m1; ex_qa]) v)))
             (Some (js "t2")) None).
    by vm_compute.
Defined.

(* ===================================================================== *)
(** * What the transcript withholds *)
(* ===================================================================== *)

Section RenderTheory.
Import AI.
Context {tables : UnicodeTables}.

(** C10.  A message whose text is empty after trimming, or is "null"
    after trimming and lower-casing, is not rendered. *)
Theorem AssistantMessage_withholds_blank (m : Message) :
  msgType m = ai ->
  JSString.trim (getContentString (msgContent m)) = []
  \/ JSString.toLowerCase (JSString.trim (getContentString (msgContent m))) = js "null" ->
  AssistantMessage (Some m) = Nothing.
Proof.
  intros Hai Hblank. unfold AssistantMessage.
  change (default (ContentBlocks []) (msgContent <$> Some m)) with (msgContent m).
  cbv zeta. destruct (bool_decide (msgType <$> Some m = Some tool)); [done|].
  destruct Hblank as [-> | ->]; reflexivity.
Qed.

End RenderTheory.

(** The text " Null ", and a text of a no-break space, a line separator and
    a byte order mark. *)
Lemma AssistantMessage_withholds_blank_witness :
  AI.AssistantMessage (Some ex_null) = AI.Nothing
  /\ AI.AssistantMessage
       (Some (textMessage (js "b") ai [160; 8232; 65279]%N)) = AI.Nothing.
Proof.
  split.
  - apply AssistantMessage_withholds_blank; [reflexivity | right; by vm_compute].
  - apply AssistantMessage_withholds_blank; [reflexivity | left; by vm_compute].
Defined.

(* ===================================================================== *)
(** * Properties of the matcher on literal patterns *)
(* ===================================================================== *)

Section LiteralPatterns.
Import RegExp JSString.
Context {tables : UnicodeTables}.

Lemma asciiUpper_isAscii (c : N) : isAscii c = true -> isAscii (asciiUpper c) = true.
Proof.
  unfold isAscii, asciiUpper. intros Hc%N.ltb_lt.
  destruct (_ && _); apply N.ltb_lt; lia.
Qed.

Lemma asciiUpper_eq_lower (a b : N) :
  asciiUpper a = asciiUpper b -> isAscii a = true -> isAscii b = true ->
  asciiLower a = asciiLower b.
Proof.
  unfold asciiUpper, asciiLower, isAscii. intros Heq Ha%N.ltb_lt Hb%N.ltb_lt.
  repeat match goal with
         | H : context [(?x <=? ?y)%N] |- _ => destruct (N.leb_spec x y)
         | |- context [(?x <=? ?y)%N] => destruct (N.leb_spec x y)
         end; simpl in *; lia.
Qed.

(** With [/i], a code unit below 128 of the pattern matches only the code
    units below 128 that agree with it up to the case of A to Z. *)
Lemma canonical_eq_lower (flags : Flags) (a b : N) :
  ignoreCase flags = true -> isAscii b = true ->
  N.eqb (canonicalize flags a) (canonicalize flags b) = true ->
  isAscii a = true /\ asciiLower a = asciiLower b.
Proof.
  unfold canonicalize. intros -> Hb Heq%N.eqb_eq. rewrite Hb in Heq.
  pose proof (asciiUpper_isAscii b Hb) as Hub.
  destruct (isAscii a) eqn:Ha.
  - split; [done|]. by apply asciiUpper_eq_lower.
  - exfalso. cbv zeta in Heq.
    destruct (isAscii (toUpperCaseUnit a)) eqn:Hcu; rewrite Heq in *; congruence.
Qed.

Lemma charMatcher_Some test x c z :
  charMatcher test x c = Some z ->
  exists ch rest', rest x = ch :: rest' /\ test ch = true
                   /\ c (advance x rest') = Some z.
Proof.
  unfold charMatcher. destruct (rest x) as [|ch rest']; [done|].
  destruct (test ch) eqn:Ht; [|done]. eauto.
Qed.

Lemma isPrefixOf_cons (a b : N) (p l : jsstring) :
  a = b -> isPrefixOf p l = true -> isPrefixOf (a :: p) (b :: l) = true.
Proof. intros -> Hp. simpl. by rewrite N.eqb_refl. Qed.

(** A literal of code units below 128 matches, the case of A to Z apart,
    only a prefix of what is left. *)
Lemma matcher_lit_prefix (flags : Flags) (s : jsstring) :
  ignoreCase flags = true -> forallb isAscii s = true ->
  forall x c z,
    matcher flags (lit s) x c = Some z ->
    isPrefixOf (map asciiLower s) (map asciiLower (rest x)) = true.
Proof.
  intros Hi. induction s as [|a s IH]; intros Hs x c z Hm; [done|].
  apply andb_true_iff in Hs as [Ha Hs].
  destruct s as [|a' s'].
  - apply charMatcher_Some in Hm as (ch & rest' & -> & Ht & _).
    apply isPrefixOf_cons; [|done]. symmetry.
    by apply (canonical_eq_lower flags ch a).
  - change (lit (a :: a' :: s')) with (Seq (Char a) (lit (a' :: s'))) in Hm.
    simpl matcher in Hm.
    apply charMatcher_Some in Hm as (ch & rest' & -> & Ht & Hm).
    apply isPrefixOf_cons; [symmetry; by apply (canonical_eq_lower flags ch a)|].
    apply (IH Hs _ _ _ Hm).
Qed.

Lemma scanFrom_AssertStart_later (flags : Flags) (r : regex) (l : jsstring) :
  forall i, scanFrom flags (Seq AssertStart r) (S i) l = None.
Proof. induction l as [|ch l IH]; intros i; simpl; [done | apply IH]. Qed.

(** A pattern that opens with [^] is found at index 0 or not at all. *)
Lemma test_AssertStart (flags : Flags) (r : regex) (input : jsstring) :
  test flags (Seq AssertStart r) input = true ->
  exists z, matcher flags r (mkState 0 input []) Some = Some z.
Proof.
  unfold test, matchFirst, exec. intros [m Hm]%bool_decide_eq_true.
  simpl in Hm. destruct input as [|ch l] eqn:El; simpl in Hm.
  - destruct (matcher flags r _ Some) as [z|] eqn:E; [eauto | done].
  - destruct (matcher flags r _ Some) as [z|] eqn:E; [eauto|].
    by rewrite scanFrom_AssertStart_later in Hm.
Qed.

End LiteralPatterns.

(* ===================================================================== *)
(** * The patterns of the source on sample texts *)
(* ===================================================================== *)

Section PatternExamples.
Import RegExp QAUtils.
Context {tables : UnicodeTables}.

Example fullHeader_any_case :
  (fun m => (index m, group 1 m, group 2 m))
    <$> matchFirst flags_i fullHeader
          (js "Hello. HERE ARE 12 vetting answers from the matched Opposing Party: ...")
  = Some (7, Some (js "12"), Some (js "Opposing Party")).
Proof. by vm_compute. Qed.

Example fullHeader_needs_colon :
  matchFirst flags_i fullHeader (js "here are 3 vetting answers from the matched buyer") = None.
Proof. by vm_compute. Qed.

Example teaserHeader_singular_and_plural :
  group 2 <$> matchFirst flags_i teaserHeader
                (js "the matched SELLER has answered 1 vetting question.")
  = Some (Some (js "1"))
  /\ group 1 <$> matchFirst flags_i teaserHeader
                   (js "The matched buyer has answered 20 vetting questions. Please")
     = Some (Some (js "buyer")).
Proof. by vm_compute. Qed.

(** An answer runs over the following lines up to the next numbered entry. *)
Example qaPattern_answer_lines :
  fullEntries (js "**1. One?**" ++ nl ++ js "line a" ++ nl ++ js "line b" ++ nl
               ++ js "**2.  Two? **  " ++ nl ++ js " b " ++ nl ++ nl ++ js "after")
  = [ mkQAPair (js "One?") (js "line a" ++ nl ++ js "line b"); mkQAPair (js "Two?") (js "b") ].
Proof. by vm_compute. Qed.

(** The question pattern takes the shortest text up to the closing stars,
    and an entry needs a number and a dot. *)
Example questionPattern_entries :
  teaserEntries (js "**1. a** and **2.  b c ** **x** **3.** 4. d")
  = [ mkQAPair (js "a") []; mkQAPair (js "b c") [] ].
Proof. by vm_compute. Qed.

Example counterpartyPattern_needs_break :
  test flags_is counterpartyPattern (js "the counterparty has answered your question: X") = false
  /\ test flags_is counterpartyPattern
       (js "Q" ++ nl ++ nl ++ js "The Counterparty has answered your question: X" ++ nl ++ js "Y")
     = true.
Proof. by vm_compute. Qed.

(** The splitter looks at the text after the last pair of line breaks. *)
Example splitter_last_segment :
  extractCounterpartyMessage
    (js "a" ++ nl ++ nl ++ js "the counterparty has answered your question: X"
         ++ nl ++ nl ++ js "closing words")
  = None.
Proof. by vm_compute. Qed.

(** A disclosed header without answered entries gives none, teaser header
    and bare questions notwithstanding. *)
Example full_header_blocks_teaser :
  parseQAPairsFromContent
    (js "here are 1 vetting answers from the matched buyer: "
     ++ js "The matched buyer has answered 1 vetting question. **1. Q?**") None
  = None
  /\ teaserEntries
       (js "here are 1 vetting answers from the matched buyer: "
        ++ js "The matched buyer has answered 1 vetting question. **1. Q?**")
     = [ mkQAPair (js "Q?") [] ].
Proof. by vm_compute. Qed.

End PatternExamples.

(* ===================================================================== *)
(** * Properties of the addendum splitter and of the extractor *)
(* ===================================================================== *)

Section ExtractorTheory.
Import RegExp QAUtils.
Context {tables : UnicodeTables}.

Lemma counterpartyStart_marker (t : jsstring) :
  test flags_i counterpartyStart t = true ->
  JSString.startsWith (map JSString.asciiLower t) marker = true.
Proof.
  intros [z Hz]%(test_AssertStart flags_i (lit marker)).
  apply matcher_lit_prefix in Hz; [|done|done].
  exact Hz.
Qed.

Lemma extractCounterpartyMessage_Some (content cm : jsstring) :
  extractCounterpartyMessage content = Some cm ->
  JSString.lastIndexOf content (nl ++ nl) <> (-1)%Z
  /\ cm = JSString.trim (JSString.substringFrom content
                           (JSString.lastIndexOf content (nl ++ nl) + 2)%Z)
  /\ test flags_i counterpartyStart cm = true.
Proof.
  unfold extractCounterpartyMessage.
  destruct (test flags_is counterpartyPattern content); [|done].
  case_bool_decide as Hi; [|done].
  destruct (test flags_i counterpartyStart _) eqn:Ht; [|done].
  intros [= <-]. done.
Qed.

Lemma extractCounterpartyMessage_truthy (content cm : jsstring) :
  extractCounterpartyMessage content = Some cm -> JSString.truthy cm = true.
Proof.
  intros (_ & _ & Ht)%extractCounterpartyMessage_Some.
  destruct cm; [by vm_compute in Ht | done].
Qed.

(** With an addendum, only the text before the split is parsed. *)
Lemma parse_before_split (content cm : jsstring) (hint : option jsstring) :
  extractCounterpartyMessage content = Some cm ->
  parseQAPairsFromContent content hint
  = parseQAContent
      (JSString.substring content 0 (JSString.lastIndexOf content (nl ++ nl))) hint.
Proof.
  intros Hcm. unfold parseQAPairsFromContent, qaContentOf. rewrite Hcm.
  by rewrite (extractCounterpartyMessage_truthy _ _ Hcm).
Qed.

Lemma splitter_none (content : jsstring) :
  beginsWithMarker (lastSegment content) = false ->
  extractCounterpartyMessage content = None.
Proof.
  intros Hb. destruct (extractCounterpartyMessage content) as [cm|] eqn:E; [|done].
  apply extractCounterpartyMessage_Some in E as (Hi & -> & Ht).
  apply counterpartyStart_marker in Ht.
  unfold beginsWithMarker, lastSegment in Hb.
  rewrite bool_decide_eq_false_2 in Hb by done. congruence.
Qed.

Lemma ex_addendum_qaContent :
  qaContentOf ex_addendum = js "**1. Q?**" ++ nl ++ js "A".
Proof. by vm_compute. Qed.

Lemma ex_addendum_no_header :
  matchFirst flags_i fullHeader (qaContentOf ex_addendum) = None
  /\ matchFirst flags_i teaserHeader (qaContentOf ex_addendum) = None.
Proof. by vm_compute. Qed.

(** C7, as amended.  On the example the splitter returns the addendum,
    trimmed; the extractor reads only the text before the split, which has
    no header, and returns none; with a disclosed header line in front, it
    finds exactly the item ("Q?", "A").  Whenever the splitter returns an
    addendum the extractor reads only the text before the split.  A text
    whose last segment, trimmed, does not begin with the marker phrase has
    no addendum. *)
Theorem addendum_isolation :
  extractCounterpartyMessage ex_addendum
    = Some (js "the counterparty has answered your question: X")
  /\ qaContentOf ex_addendum = js "**1. Q?**" ++ nl ++ js "A"
  /\ (forall hint, parseQAPairsFromContent ex_addendum hint = None)
  /\ (forall hint,
        parseQAPairsFromContent (ex_header ++ ex_addendum) hint
        = Some (mkExtraction [mkQAPair (js "Q?") (js "A")] buyer full))
  /\ (forall content cm hint,
        extractCounterpartyMessage content = Some cm ->
        parseQAPairsFromContent content hint
        = parseQAContent
            (JSString.substring content 0 (JSString.lastIndexOf content (nl ++ nl)))
            hint)
  /\ (forall content,
        beginsWithMarker (lastSegment content) = false ->
        extractCounterpartyMessage content = None).
Proof.
  split_and!.
  - by vm_compute.
  - apply ex_addendum_qaContent.
  - intros hint. unfold parseQAPairsFromContent, parseQAContent.
    destruct ex_addendum_no_header as [-> ->]. done.
  - intros hint. unfold parseQAPairsFromContent, parseQAContent.
    replace (matchFirst flags_i fullHeader (qaContentOf (ex_header ++ ex_addendum)))
      with (Some (mkResult 0 50
              [(2, js "buyer"); (1, js "1")]
              (js "here are 1 vetting answers from the matched buyer:")))
      by (by vm_compute).
    replace (fullEntries (qaContentOf (ex_header ++ ex_addendum)))
      with [mkQAPair (js "Q?") (js "A")] by (by vm_compute).
    done.
  - apply parse_before_split.
  - apply splitter_none.
Qed.

Lemma hasFullHeader_true (text : jsstring) :
  hasFullHeader text = true -> is_Some (matchFirst flags_i fullHeader text).
Proof. unfold hasFullHeader, test. by intros ?%bool_decide_eq_true. Qed.

Lemma hasFullHeader_false (text : jsstring) :
  hasFullHeader text = false -> matchFirst flags_i fullHeader text = None.
Proof.
  unfold hasFullHeader, test. intros H%bool_decide_eq_false.
  destruct (matchFirst flags_i fullHeader text); [|done]. destruct H. eauto.
Qed.

Lemma hasTeaserHeader_true (text : jsstring) :
  hasTeaserHeader text = true -> is_Some (matchFirst flags_i teaserHeader text).
Proof. unfold hasTeaserHeader, test. by intros ?%bool_decide_eq_true. Qed.

Lemma trimStartChars_blank (l : list N) :
  forallb JSString.isWhiteSpace (JSString.trimStartChars l)
  = forallb JSString.isWhiteSpace l.
Proof.
  induction l as [|c l IH]; simpl; [done|].
  destruct (JSString.isWhiteSpace c) eqn:Hc; simpl; [done | by rewrite Hc].
Qed.

Lemma trimStartChars_nil (l : list N) :
  JSString.trimStartChars l = [] <-> forallb JSString.isWhiteSpace l = true.
Proof.
  induction l as [|c l IH]; simpl; [done|].
  destruct (JSString.isWhiteSpace c); simpl; [done | split; done].
Qed.

Lemma forallb_rev {A} (f : A -> bool) (l : list A) :
  forallb f (rev l) = forallb f l.
Proof.
  induction l as [|a l IH]; simpl; [done|].
  rewrite forallb_app, IH. simpl. by rewrite andb_true_r, andb_comm.
Qed.

(** [trim] gives the empty string exactly on white space. *)
Lemma trim_empty (s : jsstring) :
  JSString.trim s = [] <-> forallb JSString.isWhiteSpace s = true.
Proof.
  unfold JSString.trim, JSString.trimEndChars.
  rewrite <- trimStartChars_blank, <- (forallb_rev _ (JSString.trimStartChars _)).
  rewrite <- trimStartChars_nil.
  set (l := JSString.trimStartChars (rev _)).
  split.
  - intros H. destruct (rev l) as [|c r] eqn:E; [|done].
    apply (f_equal (@rev _)) in E. by rewrite rev_involutive in E.
  - by intros ->.
Qed.

(** The text the extractor reads: the whole text when the splitter finds
    no addendum, the text before the last pair of line breaks when it finds
    one. *)
Lemma qaContentOf_cases (content : jsstring) :
  (extractCounterpartyMessage content = None -> qaContentOf content = content)
  /\ (forall cm, extractCounterpartyMessage content = Some cm ->
        qaContentOf content
        = JSString.substring content 0 (JSString.lastIndexOf content (nl ++ nl))).
Proof.
  unfold qaContentOf. split.
  - by intros ->.
  - intros cm Hcm. rewrite Hcm. by rewrite (extractCounterpartyMessage_truthy _ _ Hcm).
Qed.

(** The way [Spec.disclosedWins] fails by the design of the extractor: the
    disclosed header and its entry stand in the addendum, which the
    extractor does not read, and the result is the teaser one. *)
Lemma disclosed_header_in_addendum :
  hasFullHeader ex_quoted_header = true
  /\ fullEntries ex_quoted_header <> []
  /\ hasTeaserHeader ex_quoted_header = true
  /\ parseQAPairsFromContent ex_quoted_header None
     = Some (mkExtraction [mkQAPair (js "Q?") []] buyer teaser).
Proof. split_and!; by vm_compute. Qed.

(** Beside C6: the answer group of the disclosed pattern takes a line of
    blanks, and the trimmed answer of that entry is empty. *)
Lemma blank_answer_line :
  parseQAPairsFromContent ex_blank_answer None
  = Some (mkExtraction [mkQAPair (js "Q?") []] buyer full).
Proof. by vm_compute. Qed.

(** C6, as amended.  When the text the extractor reads (the text before
    the addendum split, the whole text when there is no addendum) has a
    disclosed header and the disclosed pattern finds an entry in it, the
    result is the disclosed one, with or without a teaser header, and its
    items are the entries of the disclosed pattern, in order. *)
Theorem disclosed_precedence (content : jsstring) (hint : option jsstring) :
  hasFullHeader (qaContentOf content) = true ->
  fullEntries (qaContentOf content) <> [] ->
  (exists r,
      parseQAPairsFromContent content hint = Some r
      /\ mode r = full
      /\ qaPairs r = fullEntries (qaContentOf content)
      /\ length (qaPairs r)
         = length (execAll flags_g qaPattern (qaContentOf content)))
  /\ (extractCounterpartyMessage content = None -> qaContentOf content = content)
  /\ (forall cm, extractCounterpartyMessage content = Some cm ->
        qaContentOf content
        = JSString.substring content 0 (JSString.lastIndexOf content (nl ++ nl))).
Proof.
  intros [m Hm]%hasFullHeader_true Hne. split; [|apply qaContentOf_cases].
  unfold parseQAPairsFromContent, parseQAContent. rewrite Hm.
  destruct (fullEntries (qaContentOf content)) as [|p ps] eqn:E; [done|].
  change (length (p :: ps) =? 0) with false. cbv iota.
  eexists. split; [done|]. split_and!; [done | done |]. simpl qaPairs.
  rewrite <- E. unfold fullEntries. by rewrite length_map.
Qed.

(** C8.  A header without entries gives none: a disclosed header when
    the disclosed pattern finds no entry, a teaser header (and no disclosed
    one) when the question pattern finds none; wherever a header stands,
    the result is none when neither pattern finds an entry.  Hence no
    result has an empty list of items. *)
Theorem header_without_entries (content : jsstring) (hint : option jsstring) :
  (hasFullHeader (qaContentOf content) = true ->
   fullEntries (qaContentOf content) = [] ->
   parseQAPairsFromContent content hint = None)
  /\ (hasFullHeader (qaContentOf content) = false ->
      hasTeaserHeader (qaContentOf content) = true ->
      teaserEntries (qaContentOf content) = [] ->
      parseQAPairsFromContent content hint = None)
  /\ (fullEntries (qaContentOf content) = [] ->
      teaserEntries (qaContentOf content) = [] ->
      parseQAPairsFromContent content hint = None)
  /\ (forall r, parseQAPairsFromContent content hint = Some r -> qaPairs r <> []).
Proof.
  unfold parseQAPairsFromContent, parseQAContent. split_and!.
  - intros [m ->]%hasFullHeader_true ->. done.
  - intros ->%hasFullHeader_false [m ->]%hasTeaserHeader_true ->. done.
  - intros -> ->. destruct (matchFirst flags_i fullHeader _); [done|].
    by destruct (matchFirst flags_i teaserHeader _).
  - intros r.
    destruct (matchFirst flags_i fullHeader _) as [m|].
    + destruct (fullEntries _) as [|p ps]; [done|]. by intros [= <-].
    + destruct (matchFirst flags_i teaserHeader _) as [m|]; [|done].
      destruct (teaserEntries _) as [|p ps]; [done|]. by intros [= <-].
Qed.

End ExtractorTheory.

(** C7, as stated, fails: the text of the example has no header, so the
    extractor returns none on it, not one item. *)
Lemma addendum_example_not_extracted :
  qaPairs <$> QAUtils.parseQAPairsFromContent ex_addendum None
  <> Some [mkQAPair (js "Q?") (js "A")].
Proof. vm_compute. discriminate. Qed.

Lemma addendum_isolation_witness :
  QAUtils.parseQAPairsFromContent ex_addendum None
  = QAUtils.parseQAContent
      (JSString.substring ex_addendum 0 (JSString.lastIndexOf ex_addendum (nl ++ nl)))
      None
  /\ QAUtils.extractCounterpartyMessage ex_header = None
  /\ QAUtils.extractCounterpartyMessage
       (ex_addendum ++ nl ++ nl ++ [160%N] ++ QAUtils.marker)
     = Some QAUtils.marker.
Proof.
  destruct addendum_isolation as (_ & _ & _ & _ & Hsplit & Hnone).
  split_and!.
  - apply (Hsplit ex_addendum (js "the counterparty has answered your question: X")).
    by vm_compute.
  - apply Hnone. by vm_compute.
  - by vm_compute.
Defined.

(** C6, as stated, fails: the text has both headers and an entry that the
    disclosed pattern parses, and the result is the teaser one. *)
Lemma disclosed_not_read_from_addendum : ~ Spec.disclosedWins ex_quoted_header.
Proof.
  intros H.
  destruct H as (r & Hr & Hmode & _); [by vm_compute | by vm_compute | by vm_compute |].
  vm_compute in Hr. injection Hr as <-. discriminate Hmode.
Qed.

Lemma disclosed_precedence_witness :
  QAUtils.hasTeaserHeader ex_both_headers = true
  /\ exists r,
       QAUtils.parseQAPairsFromContent ex_both_headers None = Some r
       /\ mode r = full
       /\ qaPairs r = [mkQAPair (js "Q?") (js "A")].
Proof.
  split; [by vm_compute|].
  destruct (disclosed_precedence ex_both_headers None)
    as ((r & Hr & Hmode & Hpairs & _) & _);
    [by vm_compute | by vm_compute |].
  exists r. split_and!; [done | done |]. rewrite Hpairs. by vm_compute.
Defined.

(** A header alone; a teaser header and a numbering without the bold
    markers. *)
Lemma header_without_entries_witness :
  QAUtils.parseQAPairsFromContent ex_header None = None
  /\ QAUtils.parseQAPairsFromContent ex_teaser_only None = None.
Proof.
  split.
  - apply (proj1 (header_without_entries ex_header None)); by vm_compute.
  - apply (proj1 (proj2 (header_without_entries ex_teaser_only None))); by vm_compute.
Defined.
(* ===================================================================== *)
(** * The matcher never runs out of rounds *)
(* ===================================================================== *)

Section MatcherTheory.
Import RegExp.
Context {tables : UnicodeTables}.
Variable flags : Flags.

Lemma wf_advance n x ch rest' :
  wf n x -> rest x = ch :: rest' ->
  wf n (advance x rest') /\ endIndex x <= endIndex (advance x rest').
Proof. unfold wf, advance. simpl. intros Hx E. rewrite E in Hx. simpl in Hx. lia. Qed.

Lemma charMatcher_ext test n x c c' :
  wf n x -> agreeFrom n x c c' -> charMatcher test x c = charMatcher test x c'.
Proof.
  intros Hx Hc. unfold charMatcher. destruct (rest x) as [|ch rest'] eqn:E; [done|].
  destruct (test ch); [|done].
  destruct (wf_advance n x ch rest' Hx E). by apply Hc.
Qed.

Lemma agreeFrom_later n x y c c' :
  agreeFrom n x c c' -> endIndex x <= endIndex y -> agreeFrom n y c c'.
Proof. intros Hc Hxy z Hz Hyz. apply Hc; [done | lia]. Qed.

Lemma repeatMatcher_zero m groups greedy fuel max x c :
  repeatMatcher m groups greedy (S fuel) 0 max x c
  = match max with
    | Some 0 => c x
    | _ =>
        let d := fun y =>
          if endIndex y =? endIndex x then None
          else repeatMatcher m groups greedy fuel 0 (Nat.pred <$> max) y c in
        if greedy
        then match m (clearCaptures groups x) d with Some z => Some z | None => c x end
        else match c x with Some z => Some z | None => m (clearCaptures groups x) d end
    end.
Proof. by destruct max as [[|k]|]. Qed.

Lemma repeatMatcher_succ m groups greedy fuel min max x c :
  repeatMatcher m groups greedy (S fuel) (S min) max x c
  = match max with
    | Some 0 => c x
    | _ =>
        m (clearCaptures groups x)
          (fun y => repeatMatcher m groups greedy fuel min (Nat.pred <$> max) y c)
    end.
Proof. by destruct max as [[|k]|]. Qed.

Lemma orElse_ext {A} (a a' b b' : option A) :
  a = a' -> b = b' ->
  match a with Some z => Some z | None => b end
  = match a' with Some z => Some z | None => b' end.
Proof. by intros -> ->. Qed.

(** Any two supplies of rounds that cover [min + length (rest x)] give the
    same result. *)
Lemma repeatMatcher_ext
    (m : MatchState -> (MatchState -> option MatchState) -> option MatchState)
    (groups : list nat) (greedy : bool) :
  (forall n x c c', wf n x -> agreeFrom n x c c' -> m x c = m x c') ->
  forall fuel fuel' min max n x c c',
    wf n x -> agreeFrom n x c c' ->
    S (min + length (rest x)) <= fuel ->
    S (min + length (rest x)) <= fuel' ->
    repeatMatcher m groups greedy fuel min max x c
    = repeatMatcher m groups greedy fuel' min max x c'.
Proof.
  intros Hm. induction fuel as [|fuel IH]; intros fuel' min max n x c c' Hx Hc Hf Hf';
    [lia|].
  destruct fuel' as [|fuel']; [lia|].
  assert (Hcx : c x = c' x) by (apply Hc; [done | lia]).
  destruct min as [|min'].
  - rewrite !repeatMatcher_zero.
    assert (Hd : agreeFrom n (clearCaptures groups x)
              (fun y => if endIndex y =? endIndex x then None
                        else repeatMatcher m groups greedy fuel 0 (Nat.pred <$> max) y c)
              (fun y => if endIndex y =? endIndex x then None
                        else repeatMatcher m groups greedy fuel' 0 (Nat.pred <$> max) y c')).
    { intros y Hy Hxy. simpl in Hxy.
      destruct (endIndex y =? endIndex x) eqn:Hstill; [done|].
      apply Nat.eqb_neq in Hstill. unfold wf in Hx, Hy. simpl in Hf, Hf'.
      apply (IH _ _ _ n); [done | by eapply agreeFrom_later | simpl; lia | simpl; lia]. }
    destruct max as [[|k]|]; [done | |]; cbv zeta; destruct greedy;
      apply orElse_ext; try done; by apply (Hm n).
  - rewrite !repeatMatcher_succ.
    assert (Hd : agreeFrom n (clearCaptures groups x)
              (fun y => repeatMatcher m groups greedy fuel min' (Nat.pred <$> max) y c)
              (fun y => repeatMatcher m groups greedy fuel' min' (Nat.pred <$> max) y c')).
    { intros y Hy Hxy. simpl in Hxy. unfold wf in Hx, Hy. simpl in Hf, Hf'.
      apply (IH _ _ _ n); [done | by eapply agreeFrom_later | lia | lia]. }
    destruct max as [[|k]|]; [done | |]; by apply (Hm n).
Qed.

Lemma matcher_Quant min max greedy r x c :
  matcher flags (Quant min max greedy r) x c
  = repeatMatcher (matcher flags r) (groupsOf r) greedy
      (S (min + length (rest x))) min max x c.
Proof. reflexivity. Qed.

Lemma matcher_ext (r : regex) :
  forall n x c c', wf n x -> agreeFrom n x c c' ->
    matcher flags r x c = matcher flags r x c'.
Proof.
  induction r as [ | a | | negated atoms | r1 IH1 r2 IH2 | r1 IH1 r2 IH2
                   | g r1 IH1 | min max greedy r1 IH1 | r1 IH1 | | ];
    intros n x c c' Hx Hc.
  - simpl. apply Hc; [done | lia].
  - simpl. by apply (charMatcher_ext _ n).
  - simpl. by apply (charMatcher_ext _ n).
  - simpl. by apply (charMatcher_ext _ n).
  - simpl. apply (IH1 n); [done|]. intros y Hy Hxy.
    apply (IH2 n); [done | by eapply agreeFrom_later].
  - simpl. by rewrite (IH1 n x c c'), (IH2 n x c c').
  - simpl. apply (IH1 n); [done|]. intros y Hy Hxy. by apply Hc.
  - rewrite !matcher_Quant. by apply (repeatMatcher_ext _ _ _ IH1 _ _ _ _ n).
  - simpl. destruct (matcher flags r1 x Some); [done|]. apply Hc; [done | lia].
  - simpl. destruct (endIndex x =? 0); [|done]. apply Hc; [done | lia].
  - simpl. destruct (rest x); [|done]. apply Hc; [done | lia].
Qed.

(** The rounds that [matcher] hands to a quantifier are enough: more
    rounds never change the result. *)
Theorem quantifier_rounds (r : regex) (min : nat) (max : option nat)
    (greedy : bool) (fuel : nat) (x : MatchState)
    (c : MatchState -> option MatchState) :
  S (min + length (rest x)) <= fuel ->
  repeatMatcher (matcher flags r) (groupsOf r) greedy fuel min max x c
  = matcher flags (Quant min max greedy r) x c.
Proof.
  intros Hf. rewrite matcher_Quant.
  apply (repeatMatcher_ext _ _ _ (matcher_ext r) _ _ _ _
           (endIndex x + length (rest x))); [done | done | done | lia].
Qed.

Lemma charMatcher_advance test n x c z :
  wf n x -> charMatcher test x c = Some z ->
  exists y, wf n y /\ endIndex x + 1 <= endIndex y /\ c y = Some z.
Proof.
  intros Hx Hm. unfold charMatcher in Hm.
  destruct (rest x) as [|ch rest'] eqn:E; [done|].
  destruct (test ch); [|done].
  destruct (wf_advance n x ch rest' Hx E) as [Hw _].
  exists (advance x rest'). simpl. split_and!; [done | lia | done].
Qed.

Lemma repeatMatcher_advance
    (m : MatchState -> (MatchState -> option MatchState) -> option MatchState)
    (groups : list nat) (greedy : bool) (n : nat) :
  (forall x c z, wf n x -> m x c = Some z ->
     exists y, wf n y /\ endIndex x <= endIndex y /\ c y = Some z) ->
  forall fuel min max x c z,
    wf n x ->
    repeatMatcher m groups greedy fuel min max x c = Some z ->
    exists y, wf n y /\ endIndex x <= endIndex y /\ c y = Some z.
Proof.
  intros Hm. induction fuel as [|fuel IH]; intros min max x c z Hx Hr; [done|].
  assert (Hstop : c x = Some z ->
    exists y, wf n y /\ endIndex x <= endIndex y /\ c y = Some z) by eauto.
  destruct min as [|min'].
  - rewrite repeatMatcher_zero in Hr.
    assert (Hround :
      m (clearCaptures groups x)
        (fun y => if endIndex y =? endIndex x then None
                  else repeatMatcher m groups greedy fuel 0 (Nat.pred <$> max) y c)
      = Some z ->
      exists y, wf n y /\ endIndex x <= endIndex y /\ c y = Some z).
    { intros Hd. apply Hm in Hd as (y & Hy & Hxy & Hd); [|exact Hx].
      simpl in Hxy. destruct (endIndex y =? endIndex x); [done|].
      apply IH in Hd as (y' & Hy' & Hyy' & Hc); [|done].
      exists y'. split_and!; [done | lia | done]. }
    destruct max as [[|k]|]; [by apply Hstop | |]; cbv zeta in Hr; destruct greedy.
    all: try (destruct (m (clearCaptures groups x) _) eqn:E;
              [injection Hr as ->; by apply Hround | by apply Hstop]).
    all: destruct (c x) eqn:E; [injection Hr as ->; by apply Hstop | by apply Hround].
  - rewrite repeatMatcher_succ in Hr.
    assert (Hround :
      m (clearCaptures groups x)
        (fun y => repeatMatcher m groups greedy fuel min' (Nat.pred <$> max) y c)
      = Some z ->
      exists y, wf n y /\ endIndex x <= endIndex y /\ c y = Some z).
    { intros Hd. apply Hm in Hd as (y & Hy & Hxy & Hd); [|exact Hx].
      simpl in Hxy. apply IH in Hd as (y' & Hy' & Hyy' & Hc); [|done].
      exists y'. split_and!; [done | lia | done]. }
    destruct max as [[|k]|]; [by apply Hstop | |]; by apply Hround.
Qed.

(** A successful match hands its continuation a state at least
    [minLen r] characters further on. *)
Lemma matcher_advance (r : regex) (n : nat) :
  forall x c z, wf n x -> matcher flags r x c = Some z ->
    exists y, wf n y /\ endIndex x + minLen r <= endIndex y /\ c y = Some z.
Proof.
  induction r as [ | a | | negated atoms | r1 IH1 r2 IH2 | r1 IH1 r2 IH2
                   | g r1 IH1 | min max greedy r1 IH1 | r1 IH1 | | ];
    intros x c z Hx Hm.
  - exists x. simpl. split_and!; [done | lia | done].
  - by eapply charMatcher_advance.
  - by eapply charMatcher_advance.
  - by eapply charMatcher_advance.
  - simpl in Hm. apply IH1 in Hm as (y & Hy & Hxy & Hm); [|done].
    apply IH2 in Hm as (y' & Hy' & Hyy' & Hm); [|done].
    exists y'. simpl. split_and!; [done | lia | done].
  - simpl in Hm. destruct (matcher flags r1 x c) eqn:E.
    + injection Hm as ->. apply IH1 in E as (y & ? & ? & ?); [|done].
      exists y. simpl. split_and!; [done | lia | done].
    + apply IH2 in Hm as (y & ? & ? & ?); [|done].
      exists y. simpl. split_and!; [done | lia | done].
  - simpl in Hm. apply IH1 in Hm as (y & Hy & Hxy & Hm); [|done].
    eexists. split_and!; [| |exact Hm]; [exact Hy | exact Hxy].
  - assert (Hweak : forall x c z, wf n x -> matcher flags r1 x c = Some z ->
              exists y, wf n y /\ endIndex x <= endIndex y /\ c y = Some z).
    { intros x' c' z' Hx' Hm'. apply IH1 in Hm' as (y & ? & ? & ?); [|done].
      exists y. split_and!; [done | lia | done]. }
    rewrite matcher_Quant in Hm.
    destruct min as [|min'].
    { apply (repeatMatcher_advance _ _ _ n Hweak) in Hm as (y & ? & ? & ?); [|done].
      exists y. simpl. split_and!; [done | lia | done]. }
    rewrite repeatMatcher_succ in Hm.
    destruct max as [[|k]|].
    { exists x. simpl. split_and!; [done | lia | done]. }
    all: apply IH1 in Hm as (y & Hy & Hxy & Hm); [|exact Hx];
      simpl in Hxy;
      apply (repeatMatcher_advance _ _ _ n Hweak) in Hm as (y' & ? & ? & ?); [|done];
      exists y'; simpl; split_and!; [done | lia | done].
  - simpl in Hm. destruct (matcher flags r1 x Some); [done|].
    exists x. simpl. split_and!; [done | lia | done].
  - simpl in Hm. destruct (endIndex x =? 0); [|done].
    exists x. simpl. split_and!; [done | lia | done].
  - simpl in Hm. destruct (rest x) eqn:E; [|done].
    exists x. simpl. split_and!; [done | lia | done].
Qed.

Lemma scanFrom_Some (r : regex) (l : list N) :
  forall i j lj y,
    scanFrom flags r i l = Some (j, lj, y) ->
    i <= j /\ j + minLen r <= endIndex y /\ endIndex y <= i + length l.
Proof.
  induction l as [|ch l IH]; intros i j lj y Hs; simpl in Hs.
  - destruct (matcher flags r _ Some) as [z|] eqn:E; [|done].
    injection Hs as <- <- <-.
    apply (matcher_advance r (i + 0)) in E as (y & Hy & Hxy & [= <-]); [|done].
    unfold wf in Hy. simpl in *. lia.
  - destruct (matcher flags r _ Some) as [z|] eqn:E.
    + injection Hs as <- <- <-.
      apply (matcher_advance r (i + S (length l))) in E as (y & Hy & Hxy & [= <-]);
        [|done].
      unfold wf in Hy. simpl in *. lia.
    + apply IH in Hs. simpl. lia.
Qed.

(** A match starts at or after [lastIndex], is at least [minLen r] long
    and ends inside the input. *)
Lemma exec_Some (r : regex) (input : jsstring) (lastIndex : nat) (m : MatchResult) :
  exec flags r input lastIndex = Some m ->
  lastIndex <= index m /\ index m + minLen r <= matchEnd m
  /\ matchEnd m <= length input.
Proof.
  unfold exec. destruct (length input <? lastIndex) eqn:Hlen; [done|].
  apply Nat.ltb_ge in Hlen.
  destruct (scanFrom flags r lastIndex _) as [[[j lj] y]|] eqn:Hs; [|done].
  intros [= <-]. simpl. apply scanFrom_Some in Hs.
  rewrite length_drop in Hs. lia.
Qed.

Lemma execLoop_rounds (r : regex) (input : jsstring) :
  0 < minLen r ->
  forall fuel fuel' lastIndex,
    S (length input) <= fuel + lastIndex ->
    S (length input) <= fuel' + lastIndex ->
    execLoop flags r input fuel lastIndex = execLoop flags r input fuel' lastIndex.
Proof.
  intros Hmin. induction fuel as [|fuel IH]; intros fuel' lastIndex Hf Hf'.
  - destruct fuel' as [|fuel']; [done|]. simpl.
    destruct (exec flags r input lastIndex) as [m|] eqn:E; [|done].
    apply exec_Some in E. lia.
  - destruct fuel' as [|fuel']; simpl;
      destruct (exec flags r input lastIndex) as [m|] eqn:E; try done.
    + apply exec_Some in E. lia.
    + f_equal. apply exec_Some in E. apply IH; lia.
Qed.

(** The loop over [exec] stops because [exec] returns [null], never for
    lack of rounds: any larger supply gives the same matches. *)
Theorem execAll_rounds (r : regex) (input : jsstring) (fuel : nat) :
  0 < minLen r ->
  S (length input) <= fuel ->
  execLoop flags r input fuel 0 = execAll flags r input.
Proof. intros Hmin Hf. unfold execAll. apply execLoop_rounds; [done | lia | lia]. Qed.

End MatcherTheory.

Lemma entry_patterns_consume :
  RegExp.minLen QAUtils.qaPattern = 9 /\ RegExp.minLen QAUtils.questionPattern = 7.
Proof. split; reflexivity. Qed.

(* ===================================================================== *)
(** * Further properties of the extractor and of the splitter *)
(* ===================================================================== *)

Section ExtractorMore.
Import RegExp QAUtils.
Context {tables : UnicodeTables}.

Lemma trimStartChars_idem (l : list N) :
  JSString.trimStartChars (JSString.trimStartChars l) = JSString.trimStartChars l.
Proof.
  induction l as [|c l IH]; simpl; [done|].
  destruct (JSString.isWhiteSpace c) eqn:Hc; [done|]. simpl. by rewrite Hc.
Qed.

Lemma trimStartChars_snoc (l : list N) (c : N) :
  JSString.isWhiteSpace c = false ->
  JSString.trimStartChars (l ++ [c]) = JSString.trimStartChars l ++ [c].
Proof.
  intros Hc. induction l as [|d l IH]; simpl; [by rewrite Hc|].
  by destruct (JSString.isWhiteSpace d).
Qed.

Lemma trimStartChars_head (l : list N) :
  JSString.trimStartChars l = []
  \/ exists c r, JSString.trimStartChars l = c :: r /\ JSString.isWhiteSpace c = false.
Proof.
  induction l as [|c l IH]; simpl; [by left|].
  destruct (JSString.isWhiteSpace c) eqn:Hc; [done|]. right. eauto.
Qed.

Lemma trimEndChars_idem (l : list N) :
  JSString.trimEndChars (JSString.trimEndChars l) = JSString.trimEndChars l.
Proof.
  unfold JSString.trimEndChars. by rewrite rev_involutive, trimStartChars_idem.
Qed.

(** Trimming at the end leaves a trimmed start trimmed. *)
Lemma trimStart_trimEnd (l : list N) :
  JSString.trimStartChars (JSString.trimEndChars (JSString.trimStartChars l))
  = JSString.trimEndChars (JSString.trimStartChars l).
Proof.
  destruct (trimStartChars_head l) as [-> | (c & r & -> & Hc)]; [done|].
  unfold JSString.trimEndChars. simpl rev.
  rewrite trimStartChars_snoc by done. rewrite rev_app_distr. simpl. by rewrite Hc.
Qed.

Lemma trim_idem (s : jsstring) : JSString.trim (JSString.trim s) = JSString.trim s.
Proof.
  unfold JSString.trim. by rewrite trimStart_trimEnd, trimEndChars_idem.
Qed.

Lemma parseQAContent_Some (qc : jsstring) (hint : option jsstring) (r : QAExtraction) :
  parseQAContent qc hint = Some r ->
  (hasFullHeader qc = true /\ mode r = full /\ qaPairs r = fullEntries qc)
  \/ (hasFullHeader qc = false /\ mode r = teaser /\ qaPairs r = teaserEntries qc).
Proof.
  unfold parseQAContent, hasFullHeader, test.
  destruct (matchFirst flags_i fullHeader qc) as [m|].
  - destruct (length (fullEntries qc) =? 0); [done|]. intros [= <-]. left.
    split_and!; [|done|done]. apply bool_decide_eq_true. eauto.
  - destruct (matchFirst flags_i teaserHeader qc) as [m|]; [|done].
    destruct (length (teaserEntries qc) =? 0); [done|]. intros [= <-]. right.
    split_and!; [|done|done]. apply bool_decide_eq_false. by intros [? ?].
Qed.

(** X1.  The hint decides nothing but the party: with any two hints the
    extractor returns none for both or results with the same items and the
    same mode. *)
Theorem hint_decides_party_only (content : jsstring) (hint1 hint2 : option jsstring) :
  qaPairs <$> parseQAPairsFromContent content hint1
  = qaPairs <$> parseQAPairsFromContent content hint2
  /\ mode <$> parseQAPairsFromContent content hint1
     = mode <$> parseQAPairsFromContent content hint2.
Proof.
  unfold parseQAPairsFromContent, parseQAContent.
  destruct (matchFirst flags_i fullHeader _) as [m|].
  - by destruct (length (fullEntries _) =? 0).
  - destruct (matchFirst flags_i teaserHeader _) as [m|]; [|done].
    by destruct (length (teaserEntries _) =? 0).
Qed.

(** X2.  The mode of a result is the disclosed one exactly when the text
    that is read has a disclosed header, and a teaser result carries no
    answer at all. *)
Theorem teaser_result_has_no_answers (content : jsstring) (hint : option jsstring)
    (r : QAExtraction) :
  parseQAPairsFromContent content hint = Some r ->
  (mode r = full <-> hasFullHeader (qaContentOf content) = true)
  /\ (mode r = teaser -> Forall (fun p => answer p = []) (qaPairs r)).
Proof.
  intros [(Hh & Hm & Hp) | (Hh & Hm & Hp)]%parseQAContent_Some; rewrite Hm, Hh.
  - split; [done | discriminate].
  - split; [split; discriminate|]. intros _. rewrite Hp. unfold teaserEntries.
    apply Forall_forall. intros p (m & <- & _)%list_elem_of_In%in_map_iff. done.
Qed.

Lemma parse_teaser_witness_text :
  parseQAPairsFromContent
    (js "The matched seller has answered 1 vetting question. **1. Why?**") None
  = Some (mkExtraction [mkQAPair (js "Why?") []] seller teaser).
Proof. by vm_compute. Qed.

(** X3.  Every question and every answer of a result is trimmed: trimming
    it again changes nothing. *)
Theorem result_items_are_trimmed (content : jsstring) (hint : option jsstring)
    (r : QAExtraction) :
  parseQAPairsFromContent content hint = Some r ->
  Forall (fun p => JSString.trim (question p) = question p
                   /\ JSString.trim (answer p) = answer p) (qaPairs r).
Proof.
  intros [(_ & _ & Hp) | (_ & _ & Hp)]%parseQAContent_Some; rewrite Hp;
    apply Forall_forall; intros p (m & <- & _)%list_elem_of_In%in_map_iff; simpl.
  - by rewrite !trim_idem.
  - by rewrite trim_idem.
Qed.

Lemma scanFrom_first_char (flags : Flags) (a : N) (r2 r3 : regex) (l : list N) :
  ignoreCase flags = false ->
  Forall (fun c => c <> a) l ->
  forall i, scanFrom flags (Seq (Seq (Char a) r2) r3) i l = None.
Proof.
  intros Hi Hl. induction Hl as [|c l Hc Hl IH]; intros i; simpl; [done|].
  unfold charMatcher, canonicalize. simpl. rewrite Hi.
  destruct (N.eqb c a) eqn:E; [by apply N.eqb_eq in E | apply IH].
Qed.

Lemma execAll_first_char (flags : Flags) (a : N) (r2 r3 : regex) (input : jsstring) :
  ignoreCase flags = false ->
  Forall (fun c => c <> a) input ->
  execAll flags (Seq (Seq (Char a) r2) r3) input = [].
Proof.
  intros Hi Hl. unfold execAll. simpl. unfold exec. simpl.
  by rewrite (scanFrom_first_char flags a r2 r3 _ Hi Hl).
Qed.

Lemma qaContentOf_chars (content : jsstring) :
  exists n k, qaContentOf content = take n (drop k content).
Proof.
  unfold qaContentOf.
  destruct (extractCounterpartyMessage content) as [cm|];
    [destruct (JSString.truthy cm)|].
  - unfold JSString.substring. eauto.
  - exists (length content), 0. by rewrite drop_0, firstn_all.
  - exists (length content), 0. by rewrite drop_0, firstn_all.
Qed.

Lemma parse_without_asterisk (content : jsstring) (hint : option jsstring) :
  Forall (fun c => c <> cu "*") content ->
  parseQAPairsFromContent content hint = None.
Proof.
  intros Hl.
  assert (Hqc : Forall (fun c => c <> cu "*") (qaContentOf content)).
  { destruct (qaContentOf_chars content) as (n & k & ->).
    by apply Forall_take, Forall_drop. }
  unfold parseQAPairsFromContent, parseQAContent, fullEntries, teaserEntries.
  change qaPattern with (Seq (Seq (Char (cu "*")) (Char (cu "*"))) (seqs
    [ Group 1 (plus digit); Char (cu "."); star space;
      Group 2 (plus (noneOf [cu "*"])); lit (js "**"); star space; Char LF;
      Group 3 (seqs [ plus (noneOf [LF; cu "*"]);
                      star (seqs [ Char LF;
                                   NegLookahead (seqs [ lit (js "**"); plus digit; Char (cu ".") ]);
                                   plus (noneOf [LF; cu "*"]) ]) ]) ])).
  change questionPattern with (Seq (Seq (Char (cu "*")) (Char (cu "*"))) (seqs
    [ Group 1 (plus digit); Char (cu "."); star space;
      Group 2 (plusLazy (noneOf [cu "*"])); lit (js "**") ])).
  rewrite !execAll_first_char by done. simpl.
  destruct (matchFirst flags_i fullHeader _); [done|].
  by destruct (matchFirst flags_i teaserHeader _).
Qed.

(** X4.  A text without an asterisk is never extracted, whatever headers
    and numbers it holds. *)
Theorem no_asterisk_no_extraction (content : jsstring) (hint : option jsstring) :
  Forall (fun c => c <> cu "*") content ->
  parseQAPairsFromContent content hint = None.
Proof. apply parse_without_asterisk. Qed.

Lemma parse_hint_None (content : jsstring) (hint1 hint2 : option jsstring) :
  parseQAPairsFromContent content hint1 = None ->
  parseQAPairsFromContent content hint2 = None.
Proof.
  unfold parseQAPairsFromContent, parseQAContent.
  destruct (matchFirst flags_i fullHeader _) as [m|].
  - by destruct (length (fullEntries _) =? 0).
  - destruct (matchFirst flags_i teaserHeader _) as [m|]; [|done].
    by destruct (length (teaserEntries _) =? 0).
Qed.

Lemma lastIndexFrom_spec (needle l : list N) :
  forall i acc,
    JSString.lastIndexFrom needle l i acc = acc
    \/ exists k, JSString.lastIndexFrom needle l i acc = (i + Z.of_nat k)%Z
                 /\ k <= length l
                 /\ JSString.isPrefixOf needle (drop k l) = true.
Proof.
  induction l as [|c l IH]; intros i acc; simpl.
  - destruct (JSString.isPrefixOf needle []) eqn:E; [|by left].
    right. exists 0. split_and!; [lia | done | done].
  - destruct (IH (i + 1)%Z (if JSString.isPrefixOf needle (c :: l) then i else acc))
      as [-> | (k & -> & Hk & Hp)].
    + destruct (JSString.isPrefixOf needle (c :: l)) eqn:E; [|by left].
      right. exists 0. split_and!; [lia | lia | done].
    + right. exists (S k). split_and!; [lia | lia | done].
Qed.

Lemma isPrefixOf_app (p l : list N) :
  JSString.isPrefixOf p l = true -> l = p ++ drop (length p) l.
Proof.
  revert l. induction p as [|a p IH]; intros l; simpl; [done|].
  destruct l as [|b l]; [done|].
  destruct (N.eqb a b) eqn:E; [|done]. apply N.eqb_eq in E as ->.
  intros Hp. simpl. f_equal. by apply IH.
Qed.

(** X5.  When the splitter finds an addendum, the split loses nothing: the
    text that is parsed, two line breaks and the last segment make up the
    message, and the addendum is the last segment, trimmed. *)
Theorem split_round_trip (content cm : jsstring) :
  extractCounterpartyMessage content = Some cm ->
  content = qaContentOf content ++ nl ++ nl ++ lastSegment content
  /\ cm = JSString.trim (lastSegment content).
Proof.
  intros Hcm. pose proof (extractCounterpartyMessage_truthy _ _ Hcm) as Ht.
  pose proof (extractCounterpartyMessage_Some _ _ Hcm) as (Hi & -> & _).
  unfold qaContentOf, lastSegment. rewrite Hcm, Ht.
  rewrite bool_decide_eq_false_2 by done. split; [|done].
  unfold JSString.lastIndexOf in *.
  set (l := content) in *.
  destruct (lastIndexFrom_spec (nl ++ nl) l 0%Z (-1)%Z)
    as [E | (k & E & Hk & Hp)]; [done|].
  unfold JSString.substringFrom, JSString.substring. rewrite E.
  apply isPrefixOf_app in Hp. change (nl ++ nl) with [LF; LF] in Hp.
  assert (Hlen : k + 2 <= length l).
  { apply (f_equal (@length _)) in Hp. rewrite length_drop in Hp. simpl in Hp. lia. }
  unfold JSString.clampIndex.
  replace (Z.to_nat 0) with 0 by lia.
  replace (Z.to_nat (0 + Z.of_nat k)) with k by lia.
  replace (Z.to_nat (0 + Z.of_nat k + 2)) with (k + 2) by lia.
  rewrite Nat2Z.id.
  replace (Nat.min 0 (length l)) with 0 by lia.
  replace (Nat.min k (length l)) with k by lia.
  replace (Nat.min (k + 2) (length l)) with (k + 2) by lia.
  replace (Nat.min (length l) (length l)) with (length l) by lia.
  replace (Nat.min 0 k) with 0 by lia. replace (Nat.max 0 k) with k by lia.
  replace (Nat.min (k + 2) (length l)) with (k + 2) by lia.
  replace (Nat.max (k + 2) (length l)) with (length l) by lia.
  rewrite drop_0, Nat.sub_0_r.
  rewrite (firstn_all2 (drop (k + 2) l)) by (rewrite length_drop; lia).
  rewrite <- (take_drop k l) at 1. rewrite Hp at 1.
  rewrite drop_drop. simpl length. done.
Qed.

(** X6.  An addendum is never empty, is trimmed, and begins with the marker
    phrase, the case of the letters A to Z apart. *)
Theorem addendum_shape (content cm : jsstring) :
  extractCounterpartyMessage content = Some cm ->
  cm <> []
  /\ JSString.trim cm = cm
  /\ JSString.startsWith (map JSString.asciiLower cm) marker = true.
Proof.
  intros Hcm. pose proof (extractCounterpartyMessage_truthy _ _ Hcm) as Ht.
  pose proof (extractCounterpartyMessage_Some _ _ Hcm) as (_ & Heq & Hm).
  split_and!.
  - by intros ->.
  - rewrite Heq. apply trim_idem.
  - by apply counterpartyStart_marker.
Qed.

End ExtractorMore.

Lemma teaser_result_has_no_answers_witness :
  Forall (fun p => answer p = []) [mkQAPair (js "Why?") []].
Proof.
  exact (proj2 (teaser_result_has_no_answers _ None _ parse_teaser_witness_text)
               eq_refl).
Defined.

Lemma result_items_are_trimmed_witness :
  Forall (fun p => JSString.trim (question p) = question p
                   /\ JSString.trim (answer p) = answer p)
         [mkQAPair (js "Why?") []].
Proof.
  exact (result_items_are_trimmed _ None _ parse_teaser_witness_text).
Defined.

Lemma no_asterisk_no_extraction_witness :
  QAUtils.parseQAPairsFromContent
    (js "here are 2 vetting answers from the matched buyer: 1. One? yes 2. Two? no") None
  = None.
Proof.
  apply no_asterisk_no_extraction. repeat constructor; discriminate.
Defined.

Lemma split_round_trip_witness :
  ex_addendum
  = QAUtils.qaContentOf ex_addendum ++ nl ++ nl ++ QAUtils.lastSegment ex_addendum
  /\ js "the counterparty has answered your question: X"
     = JSString.trim (QAUtils.lastSegment ex_addendum).
Proof. apply split_round_trip. by vm_compute. Defined.

Lemma addendum_shape_witness :
  js "the counterparty has answered your question: X" <> []
  /\ JSString.trim (js "the counterparty has answered your question: X")
     = js "the counterparty has answered your question: X"
  /\ JSString.startsWith
       (map JSString.asciiLower (js "the counterparty has answered your question: X"))
       QAUtils.marker = true.
Proof. apply (addendum_shape ex_addendum). by vm_compute. Defined.
(* ===================================================================== *)
(** * Further properties of the deduplicator and of the detection *)
(* ===================================================================== *)

Section DetectionMore.
Import RegExp Dedup QAUtils Thread.
Context {tables : UnicodeTables}.

(** X7.  A list whose normalized questions are pairwise distinct comes
    back unchanged. *)
Theorem deduplicateQAPairs_distinct (l : list QAPair) :
  NoDup (normalizedQuestion <$> l) -> deduplicateQAPairs l = l.
Proof. intros Hnd. rewrite deduplicateQAPairs_keepLast. by apply keepLast_id. Qed.

Lemma keepLast_final (l : list QAPair) : last (keepLast l) = last l.
Proof.
  induction l as [|p rest IH]; simpl; [done|].
  destruct rest as [|q rest']; [done|].
  rewrite last_cons_cons.
  destruct (existsb (sameQuestion p) (q :: rest')); [done|].
  destruct (keepLast (q :: rest')) as [|k ks] eqn:E.
  - symmetry in IH. by apply last_None in IH.
  - by rewrite last_cons_cons.
Qed.

(** X8.  The last item of the input is the last item of the output, so a
    non-empty input gives a non-empty output; the output is never longer
    than the input. *)
Theorem deduplicateQAPairs_keeps_last_item (l : list QAPair) :
  last (deduplicateQAPairs l) = last l
  /\ length (deduplicateQAPairs l) <= length l
  /\ (deduplicateQAPairs l = [] <-> l = []).
Proof.
  rewrite deduplicateQAPairs_keepLast. split_and!.
  - apply keepLast_final.
  - apply sublist_length, keepLast_sublist.
  - rewrite <- !last_None. by rewrite keepLast_final.
Qed.

Lemma detectFromLast_skip (a b : list Message) :
  (forall m, m ∈ a -> ~ yieldsExtraction m) ->
  detectFromLast (a ++ b) = detectFromLast b.
Proof.
  intros Ha. induction a as [|m a IH]; [done|]. simpl.
  assert (Hm : ~ yieldsExtraction m) by (apply Ha; by left).
  assert (IH' : detectFromLast (a ++ b) = detectFromLast b)
    by (apply IH; intros x Hx; apply Ha; by right).
  unfold yieldsExtraction in Hm.
  destruct (msgType m); try done.
  destruct (parseQAPairsFromContent _ _) eqn:E; [|done].
  destruct Hm. split; [done | congruence].
Qed.

(** X9.  The detection takes the most recent assistant message that yields
    an extraction: later messages that yield none do not matter, earlier
    ones are not looked at. *)
Theorem detection_prefers_latest (before after : list Message) (m : Message)
    (r : QAExtraction) :
  msgType m = ai ->
  parseQAPairsFromContent (getContentString (msgContent m)) (msgName m) = Some r ->
  (forall m', m' ∈ after -> ~ yieldsExtraction m') ->
  detectedQAPairs (before ++ m :: after)
  = Some (mkExtraction (deduplicateQAPairs (qaPairs r)) (opposingParty r) (mode r)).
Proof.
  intros Hai Hr Hafter. unfold detectedQAPairs.
  rewrite rev_app_distr. simpl. rewrite <- app_assoc.
  rewrite detectFromLast_skip.
  - simpl. by rewrite Hai, Hr.
  - intros x Hx%list_elem_of_In%in_rev. by apply Hafter, list_elem_of_In.
Qed.

Lemma detectFromLast_Some (l : list Message) (d : QAExtraction) :
  detectFromLast l = Some d ->
  exists m r, m ∈ l /\ msgType m = ai
    /\ parseQAPairsFromContent (getContentString (msgContent m)) (msgName m) = Some r
    /\ d = mkExtraction (deduplicateQAPairs (qaPairs r)) (opposingParty r) (mode r).
Proof.
  induction l as [|m l IH]; simpl; [done|].
  assert (Hrest : detectFromLast l = Some d ->
    exists m0 r, m0 ∈ m :: l /\ msgType m0 = ai
      /\ parseQAPairsFromContent (getContentString (msgContent m0)) (msgName m0) = Some r
      /\ d = mkExtraction (deduplicateQAPairs (qaPairs r)) (opposingParty r) (mode r)).
  { intros (m0 & r & Hin & ?)%IH. exists m0, r. split; [by right | done]. }
  destruct (msgType m) eqn:Ht; try done.
  destruct (parseQAPairsFromContent _ _) as [r|] eqn:E; [|done].
  intros [= <-]. exists m, r. split_and!; [by left | done | done | done].
Qed.

(** X10.  What the detection returns comes from an assistant message of
    the list, has at least one item, and no two of its items have the same
    normalized question. *)
Theorem detection_is_deduplicated (messages : list Message) (d : QAExtraction) :
  detectedQAPairs messages = Some d ->
  qaPairs d <> []
  /\ NoDup (normalizedQuestion <$> qaPairs d)
  /\ exists m r, m ∈ messages /\ msgType m = ai
       /\ parseQAPairsFromContent (getContentString (msgContent m)) (msgName m) = Some r
       /\ mode d = mode r /\ opposingParty d = opposingParty r.
Proof.
  unfold detectedQAPairs. intros (m & r & Hin & Hai & Hr & ->)%detectFromLast_Some.
  simpl. split_and!.
  - rewrite deduplicateQAPairs_keepLast. intros Hnil.
    assert (Hl : last (keepLast (qaPairs r)) = None) by by rewrite Hnil.
    rewrite keepLast_final in Hl. apply last_None in Hl.
    unfold parseQAPairsFromContent, parseQAContent in Hr.
    destruct (matchFirst flags_i fullHeader _).
    + destruct (fullEntries _) eqn:E; [done|]. injection Hr as <-. simpl in Hl.
      congruence.
    + destruct (matchFirst flags_i teaserHeader _); [|done].
      destruct (teaserEntries _) eqn:E; [done|]. injection Hr as <-. simpl in Hl.
      congruence.
  - rewrite deduplicateQAPairs_keepLast. apply keepLast_NoDup.
  - exists m, r. split_and!; try done.
    apply list_elem_of_In, in_rev. by apply list_elem_of_In.
Qed.

End DetectionMore.

Section DetectionExamples.
Import Dedup QAUtils Thread.

Lemma deduplicateQAPairs_distinct_witness :
  deduplicateQAPairs [mkQAPair (js "Budget?") (js "Low"); mkQAPair (js " budget ") (js "High")]
  = [mkQAPair (js "Budget?") (js "Low"); mkQAPair (js " budget ") (js "High")].
Proof.
  apply deduplicateQAPairs_distinct. vm_compute.
  repeat constructor; rewrite ?elem_of_cons, ?elem_of_nil; intuition discriminate.
Defined.

Lemma detection_prefers_latest_witness :
  detectedQAPairs ([ex_null; ex_qa] ++ ex_qa :: [ex_m1; ex_m2])
  = Some (mkExtraction (deduplicateQAPairs [mkQAPair (js "Q?") (js "A")]) buyer full).
Proof.
  apply (detection_prefers_latest [ex_null; ex_qa] [ex_m1; ex_m2] ex_qa
           (mkExtraction [mkQAPair (js "Q?") (js "A")] buyer full)).
  - reflexivity.
  - by vm_compute.
  - apply detectedQAPairs_None. by vm_compute.
Defined.

Lemma detection_is_deduplicated_witness :
  [mkQAPair (js "Q?") (js "A")] <> []
  /\ NoDup (normalizedQuestion <$> [mkQAPair (js "Q?") (js "A")]).
Proof.
  destruct (detection_is_deduplicated [ex_m1; ex_qa]
              (mkExtraction [mkQAPair (js "Q?") (js "A")] buyer full)) as (H1 & H2 & _);
    [by vm_compute | done].
Defined.

End DetectionExamples.

(* ===================================================================== *)
(** * Further properties of what [AssistantMessage] renders *)
(* ===================================================================== *)

Section RenderMore.
Import QAUtils Thread AI.
Context {tables : UnicodeTables}.

Lemma toLowerCase_truthy (s : jsstring) :
  s <> [] -> JSString.truthy (JSString.toLowerCase s) = true.
Proof.
  intros Hs. unfold JSString.toLowerCase.
  destruct (forallb JSString.isAscii s).
  - by destruct s.
  - pose proof (toLowerCaseUnicode_nonempty s Hs) as Hne.
    by destruct (toLowerCaseUnicode s).
Qed.

Lemma AssistantMessage_cases (m : Message) :
  let contentString := getContentString (msgContent m) in
  AssistantMessage (Some m) =
    if bool_decide (msgType m = tool) then Nothing
    else if negb (JSString.truthy (JSString.toLowerCase (JSString.trim contentString)))
            || bool_decide (JSString.toLowerCase (JSString.trim contentString) = js "null")
    then Nothing
    else
      match parseQAPairsFromContent contentString None,
            extractCounterpartyMessage contentString with
      | Some _, Some cm => if JSString.truthy cm then CounterpartyOnly cm else Nothing
      | Some _, None => Nothing
      | None, _ => WholeContent contentString
      end.
Proof.
  intros cs. unfold AssistantMessage.
  change (default (ContentBlocks []) (msgContent <$> Some m)) with (msgContent m).
  fold cs. cbv zeta.
  assert (Htool : bool_decide (msgType <$> Some m = Some tool)
                  = bool_decide (msgType m = tool)).
  { apply bool_decide_ext. simpl. split; [by intros [= ->] | by intros ->]. }
  rewrite Htool. destruct (bool_decide (msgType m = tool)); [done|].
  rewrite (bool_decide_eq_true_2 (is_Some (Some m))) by eauto. simpl negb at 1.
  rewrite orb_false_l.
  destruct (negb _ || _); [done|].
  destruct (parseQAPairsFromContent cs None) as [r|] eqn:Hp.
  - rewrite bool_decide_eq_true_2 by done.
    destruct (extractCounterpartyMessage cs) as [cm|]; [|done].
    simpl. by destruct (JSString.truthy cm).
  - rewrite bool_decide_eq_false_2 by (intros H; by apply H).
    by destruct (extractCounterpartyMessage cs).
Qed.

(** X11.  What is rendered is never a tool result, never blank and never
    a text the extractor accepts: the whole text is shown only when the
    extractor returns none on it, and an addendum only for a text with a
    Q/A block. *)
Theorem rendered_text_is_sound (m : Message) :
  match AssistantMessage (Some m) with
  | Nothing => True
  | WholeContent t =>
      t = getContentString (msgContent m)
      /\ msgType m <> tool
      /\ JSString.trim t <> []
      /\ JSString.toLowerCase (JSString.trim t) <> js "null"
      /\ parseQAPairsFromContent t None = None
  | CounterpartyOnly cm =>
      msgType m <> tool
      /\ cm <> []
      /\ extractCounterpartyMessage (getContentString (msgContent m)) = Some cm
      /\ parseQAPairsFromContent (getContentString (msgContent m)) None <> None
  end.
Proof.
  rewrite AssistantMessage_cases. cbv zeta.
  set (cs := getContentString (msgContent m)).
  case_bool_decide as Htool; [done|].
  destruct (negb _ || _) eqn:Hblank; [done|].
  apply orb_false_iff in Hblank as [Ht%negb_false_iff Hnull%bool_decide_eq_false].
  destruct (parseQAPairsFromContent cs None) as [r|] eqn:Hp.
  - destruct (extractCounterpartyMessage cs) as [cm|] eqn:Hcm; [|done].
    destruct (JSString.truthy cm) eqn:Hcmt; [|done].
    split_and!; [done | by intros -> | done | done].
  - split_and!; [done | done | | done | done].
    intros Hempty. by rewrite Hempty in Ht.
Qed.

(** X12.  An assistant message whose text is not blank and that is not shown
    whole is a Q/A message, and then the detection finds an extraction in
    every list that holds the message: what the transcript withholds, the
    summary has. *)
Theorem withheld_block_is_detected (messages : list Message) (m : Message) :
  m ∈ messages ->
  msgType m = ai ->
  JSString.trim (getContentString (msgContent m)) <> [] ->
  JSString.toLowerCase (JSString.trim (getContentString (msgContent m))) <> js "null" ->
  AssistantMessage (Some m) <> WholeContent (getContentString (msgContent m)) ->
  is_Some (detectedQAPairs messages).
Proof.
  intros Hin Hai Hne Hnull Hwhole. rewrite AssistantMessage_cases in Hwhole.
  cbv zeta in Hwhole. rewrite Hai in Hwhole.
  rewrite (bool_decide_eq_false_2 (ai = tool)) in Hwhole by done.
  rewrite (toLowerCase_truthy _ Hne) in Hwhole.
  rewrite bool_decide_eq_false_2 in Hwhole by done. simpl in Hwhole.
  destruct (detectedQAPairs messages) as [d|] eqn:Hd; [eauto|].
  exfalso. apply (proj1 (detectedQAPairs_None messages) Hd m Hin).
  split; [done|]. intros Hnone.
  by rewrite (parse_hint_None _ _ None Hnone) in Hwhole.
Qed.

(** X13.  An assistant message whose text has no asterisk, is not blank and
    is not "null" is shown whole. *)
Theorem ordinary_text_is_shown (m : Message) :
  msgType m <> tool ->
  Forall (fun c => c <> cu "*") (getContentString (msgContent m)) ->
  JSString.trim (getContentString (msgContent m)) <> [] ->
  JSString.toLowerCase (JSString.trim (getContentString (msgContent m))) <> js "null" ->
  AssistantMessage (Some m) = WholeContent (getContentString (msgContent m)).
Proof.
  intros Htool Hstar Hne Hnull. rewrite AssistantMessage_cases. cbv zeta.
  rewrite bool_decide_eq_false_2 by done.
  rewrite (toLowerCase_truthy _ Hne), bool_decide_eq_false_2 by done. simpl.
  by rewrite parse_without_asterisk.
Qed.

Lemma filter_none {A} (f : A -> bool) (l : list A) :
  Forall (fun x => f x = false) l -> List.filter f l = [].
Proof. induction 1 as [|x l Hx _ IH]; simpl; [done | by rewrite Hx]. Qed.

(** X14.  Blocks that are not text blocks add nothing to the text of a
    message; a message made of such blocks only has the empty text and is
    not rendered. *)
Theorem non_text_blocks_are_ignored (i : option jsstring) (t : MessageType)
    (n : option jsstring) (blocks : list ContentBlock) :
  getContentString (ContentBlocks blocks)
  = getContentString (ContentBlocks (List.filter isTextBlock blocks))
  /\ (Forall (fun b => isTextBlock b = false) blocks ->
      getContentString (ContentBlocks blocks) = []
      /\ AssistantMessage (Some (mkMessage i t (ContentBlocks blocks) n)) = Nothing).
Proof.
  split.
  - simpl. f_equal. f_equal. symmetry. induction blocks as [|b bs IH]; simpl; [done|].
    destruct (isTextBlock b) eqn:Hb; simpl; [by rewrite Hb, IH | done].
  - intros Hall.
    assert (Hcs : getContentString (ContentBlocks blocks) = [])
      by (simpl; by rewrite filter_none).
    split; [done|]. rewrite AssistantMessage_cases. cbv zeta. simpl msgContent.
    rewrite Hcs. by destruct (bool_decide _).
Qed.

End RenderMore.

Section RenderExamples.
Import QAUtils Thread AI.

Lemma withheld_block_is_detected_witness :
  is_Some (detectedQAPairs [ex_m1; ex_qa; ex_m2]).
Proof.
  apply (withheld_block_is_detected [ex_m1; ex_qa; ex_m2] ex_qa).
  - apply list_elem_of_In. simpl. tauto.
  - reflexivity.
  - by vm_compute.
  - by vm_compute.
  - by vm_compute.
Defined.

Lemma ordinary_text_is_shown_witness :
  AssistantMessage (Some ex_m2) = WholeContent (js "hi").
Proof.
  apply (ordinary_text_is_shown ex_m2).
  - discriminate.
  - repeat constructor; discriminate.
  - by vm_compute.
  - by vm_compute.
Defined.

Lemma non_text_blocks_are_ignored_witness :
  getContentString (ContentBlocks [[(js "type", JSON.Str (js "image_url"))]]) = []
  /\ AssistantMessage
       (Some (mkMessage None ai (ContentBlocks [[(js "type", JSON.Str (js "image_url"))]]) None))
     = Nothing.
Proof.
  apply (proj2 (non_text_blocks_are_ignored None ai None
                  [[(js "type", JSON.Str (js "image_url"))]])).
  repeat constructor.
Defined.

End RenderExamples.
(* ===================================================================== *)
(** * Properties of the transcript *)
(* ===================================================================== *)

Section TranscriptTheory.
Import Transcript.
Variable hiddenPrefix : jsstring.

Lemma foldr_dedupStep (l : list Message) : forall i,
  foldr dedupStep (∅, []) (zip (seq i (length l)) l)
  = (list_to_set (keysFrom i l), lastOfKey i l).
Proof.
  induction l as [|m rest IH]; intros i; [done|].
  simpl. rewrite IH. unfold dedupStep. simpl.
  destruct (decide (messageKey i m ∈ keysFrom (S i) rest)) as [Hin|Hnin].
  - rewrite decide_True by (by apply elem_of_list_to_set). f_equal.
    apply leibniz_equiv. intros k. rewrite elem_of_union, elem_of_singleton.
    split; [tauto | intros [->|?]; [by apply elem_of_list_to_set | done]].
  - by rewrite decide_False by (by rewrite elem_of_list_to_set).
Qed.

Lemma deduplicated_lastOfKey (filtered : list Message) :
  deduplicated filtered = lastOfKey 0 filtered.
Proof. unfold deduplicated, indexed. by rewrite foldr_dedupStep. Qed.

Lemma lastOfKey_sublist (l : list Message) : forall i, sublist (lastOfKey i l) l.
Proof.
  induction l as [|m rest IH]; intros i; simpl; [constructor|].
  destruct (decide _); constructor; apply IH.
Qed.

Lemma lastOfKey_final (l : list Message) : forall i, last (lastOfKey i l) = last l.
Proof.
  induction l as [|m rest IH]; intros i; simpl; [done|].
  destruct rest as [|q rest']; [by rewrite decide_False by apply not_elem_of_nil|].
  rewrite last_cons_cons. specialize (IH (S i)).
  destruct (decide _); [done|].
  destruct (lastOfKey (S i) (q :: rest')) as [|k ks] eqn:E.
  - symmetry in IH. by apply last_None in IH.
  - by rewrite last_cons_cons.
Qed.

Lemma lastOfKey_distinct (l : list Message) : forall i,
  NoDup (keysFrom i l) -> lastOfKey i l = l.
Proof.
  induction l as [|m rest IH]; intros i; simpl; [done|].
  intros [Hnin Hnd]%NoDup_cons. rewrite decide_False by done. by rewrite IH.
Qed.

Lemma filter_sublist {A} (f : A -> bool) (l : list A) : sublist (List.filter f l) l.
Proof.
  induction l as [|x l IH]; simpl; [constructor|].
  destruct (f x); by constructor.
Qed.

Lemma sublist_Forall_keep {A} (P : A -> Prop) (l k : list A) :
  sublist l k -> Forall P k -> Forall P l.
Proof.
  induction 1 as [|x l k _ IH|x l k _ IH]; intros Hk; [done| |].
  - apply Forall_cons in Hk as [? ?]. constructor; auto.
  - apply Forall_cons in Hk as [? ?]. auto.
Qed.

Lemma filter_Forall {A} (f : A -> bool) (l : list A) :
  Forall (fun x => f x = true) (List.filter f l).
Proof.
  induction l as [|x l IH]; simpl; [constructor|].
  destruct (f x) eqn:E; [by constructor | done].
Qed.

(** X15.  The transcript is the list of messages with some left out, in
    the same order; it holds no tool result and no message whose id has the
    hidden prefix; the last message that passes the filter is always in it;
    and when the keys of the filtered messages are pairwise distinct none of
    them is left out. *)
Theorem transcript_shape (messages : list Message) :
  sublist (transcript hiddenPrefix messages) messages
  /\ Forall (fun m => msgType m <> tool /\ hiddenId hiddenPrefix m = false)
       (transcript hiddenPrefix messages)
  /\ last (transcript hiddenPrefix messages)
     = last (List.filter (shown hiddenPrefix) messages)
  /\ (NoDup (keysFrom 0 (List.filter (shown hiddenPrefix) messages)) ->
      transcript hiddenPrefix messages = List.filter (shown hiddenPrefix) messages).
Proof.
  unfold transcript. rewrite deduplicated_lastOfKey. split_and!.
  - etrans; [apply lastOfKey_sublist | apply filter_sublist].
  - eapply sublist_Forall_keep; [apply lastOfKey_sublist|].
    eapply Forall_impl; [apply filter_Forall|].
    intros m [Hh Ht]%andb_true_iff. split.
    + by apply negb_true_iff, bool_decide_eq_false in Ht.
    + by apply negb_true_iff in Hh.
  - apply lastOfKey_final.
  - apply lastOfKey_distinct.
Qed.

Lemma messageKey_id (i : nat) (m : Message) (k : jsstring) :
  msgId m = Some k -> k <> [] -> messageKey i m = k.
Proof. unfold messageKey. intros -> Hk. by destruct k. Qed.

Lemma key_in_ids (m : Message) (rest : list Message) (i j : nat) :
  hasId m -> Forall hasId rest ->
  (messageKey i m ∈ keysFrom j rest <-> msgId m ∈ msgId <$> rest).
Proof.
  intros (k & Hk & Hne) Hrest. rewrite (messageKey_id i m k Hk Hne), Hk.
  revert j. induction Hrest as [|q rest (kq & Hq & Hqne) _ IH]; intros j; simpl.
  - by rewrite !elem_of_nil.
  - rewrite !elem_of_cons, (IH (S j)), (messageKey_id j q kq Hq Hqne), Hq.
    split; (intros [?|?]; [left; congruence | by right]).
Qed.

Lemma lastOfKey_ids (l : list Message) : forall i,
  Forall hasId l ->
  NoDup (msgId <$> lastOfKey i l)
  /\ (forall k, k ∈ msgId <$> lastOfKey i l <-> k ∈ msgId <$> l)
  /\ (forall m, m ∈ lastOfKey i l ->
        exists l1 l2, l = l1 ++ m :: l2 /\ Forall (fun q => msgId q <> msgId m) l2).
Proof.
  induction l as [|m rest IH]; intros i Hall.
  - simpl. split_and!; [constructor | done | by intros m ?%elem_of_nil].
  - apply Forall_cons in Hall as [Hm Hrest].
    destruct (IH (S i) Hrest) as (Hnd & Hkeys & Hlast). simpl.
    destruct (decide (messageKey i m ∈ keysFrom (S i) rest)) as [Hin|Hnin].
    + apply (key_in_ids m rest i (S i) Hm Hrest) in Hin. split_and!.
      * done.
      * intros k. rewrite Hkeys. simpl. rewrite elem_of_cons.
        split; [by right | by intros [->|?]].
      * intros x (l1 & l2 & -> & H)%Hlast. by exists (m :: l1), l2.
    + rewrite (key_in_ids m rest i (S i) Hm Hrest) in Hnin. split_and!.
      * simpl. constructor; [by rewrite Hkeys | done].
      * intros k. simpl. by rewrite !elem_of_cons, Hkeys.
      * intros x [->|Hx]%elem_of_cons.
        -- exists [], rest. split; [done|]. apply Forall_forall. intros q Hq Heq.
           apply Hnin. rewrite <- Heq. by apply list_elem_of_fmap_2.
        -- apply Hlast in Hx as (l1 & l2 & -> & H). by exists (m :: l1), l2.
Qed.

(** X16.  When every message has a non-empty id, the transcript shows every
    id of the filtered list exactly once, and the message it shows for an id
    is the last of the filtered messages with that id. *)
Theorem transcript_one_per_id (messages : list Message) :
  Forall hasId messages ->
  NoDup (msgId <$> transcript hiddenPrefix messages)
  /\ (forall k, k ∈ msgId <$> transcript hiddenPrefix messages
                <-> k ∈ msgId <$> List.filter (shown hiddenPrefix) messages)
  /\ (forall m, m ∈ transcript hiddenPrefix messages ->
        exists l1 l2, List.filter (shown hiddenPrefix) messages = l1 ++ m :: l2
                      /\ Forall (fun q => msgId q <> msgId m) l2).
Proof.
  intros Hall. unfold transcript. rewrite deduplicated_lastOfKey.
  apply lastOfKey_ids. eapply sublist_Forall_keep; [apply filter_sublist | done].
Qed.

End TranscriptTheory.

Lemma transcript_shape_witness :
  Transcript.transcript (js "do-not-render-") [ex_m1; ex_m2; ex_m3] = [ex_m1; ex_m2; ex_m3].
Proof.
  apply (proj2 (proj2 (proj2 (transcript_shape (js "do-not-render-") [ex_m1; ex_m2; ex_m3])))).
  vm_compute.
  repeat constructor; rewrite ?elem_of_cons, ?elem_of_nil; intuition discriminate.
Defined.

Lemma transcript_one_per_id_witness :
  NoDup (msgId <$> Transcript.transcript (js "do-not-render-") [ex_m1; ex_m2; ex_m1]).
Proof.
  apply (transcript_one_per_id (js "do-not-render-") [ex_m1; ex_m2; ex_m1]).
  repeat constructor; eexists; (split; [reflexivity | discriminate]).
Defined.

(* ===================================================================== *)
(** * Properties of the error toast and of the submit handler *)
(* ===================================================================== *)

Section ToastTheory.
Import ErrorToast.

Lemma toasts_app (a b : list StreamError) : forall lastError,
  toasts lastError (a ++ b)
  = toasts lastError a ++ toasts (lastErrorAfter lastError a) b.
Proof.
  induction a as [|e a IH]; intros lastError; simpl; [done|].
  destruct (errorEffect lastError e) as [lastError' [message|]]; simpl;
    by rewrite IH.
Qed.

Lemma toasts_cons (lastError : option jsstring) (e : StreamError)
    (rest : list StreamError) :
  toasts lastError (e :: rest)
  = match errorEffect lastError e with
    | (lastError', Some message) => message :: toasts lastError' rest
    | (lastError', None) => toasts lastError' rest
    end.
Proof. reflexivity. Qed.

Lemma errorEffect_message (lastError : option jsstring) (m : jsstring) :
  errorEffect lastError (Some (Some m))
  = if decide (m = [] \/ lastError = Some m) then (lastError, None)
    else (Some m, Some m).
Proof.
  unfold errorEffect. destruct (decide _) as [[->| ->]|Hn].
  - reflexivity.
  - by rewrite bool_decide_eq_true_2, orb_true_r.
  - destruct m as [|c m']; [tauto|].
    rewrite bool_decide_eq_false_2 by tauto. reflexivity.
Qed.

Lemma toasts_settled (m : jsstring) (k : nat) :
  toasts (Some m) (replicate k (Some (Some m))) = [].
Proof.
  induction k as [|k IH]; [done|]. simpl replicate.
  rewrite toasts_cons, errorEffect_message, decide_True; [done | by right].
Qed.

Lemma toasts_same_twice (lastError : option jsstring) (m : jsstring) :
  toasts lastError [Some (Some m); Some (Some m)]
  = toasts lastError [Some (Some m)].
Proof.
  rewrite (toasts_cons lastError _ [Some (Some m)]), (toasts_cons lastError _ []).
  rewrite errorEffect_message. case_decide as H.
  - by rewrite toasts_cons, errorEffect_message, decide_True.
  - exact (f_equal (cons m) (toasts_settled m 1)).
Qed.

Lemma toasts_repeated (m : jsstring) (n : nat) : forall lastError,
  length (toasts lastError (replicate n (Some (Some m)))) <= 1.
Proof.
  induction n as [|n IH]; intros lastError; [simpl; lia|]. simpl replicate.
  rewrite toasts_cons, errorEffect_message. case_decide as H; [apply IH|].
  rewrite toasts_settled. simpl. lia.
Qed.

Lemma toasts_not_empty (errors : list StreamError) : forall lastError,
  Forall (fun t => t <> []) (toasts lastError errors).
Proof.
  induction errors as [|e errors IH]; intros lastError; [constructor|].
  rewrite toasts_cons. destruct e as [[m|]|]; [|apply IH|apply IH].
  rewrite errorEffect_message. case_decide as H; [apply IH|].
  constructor; [tauto | apply IH].
Qed.

(** X17.  An error that is reported again right away raises no second
    toast, however often it repeats; once the error has gone, the same
    message raises a toast again; and no toast has an empty message. *)
Theorem error_toast_discipline (lastError : option jsstring)
    (errors : list StreamError) (m : jsstring) :
  toasts lastError (errors ++ [Some (Some m); Some (Some m)])
  = toasts lastError (errors ++ [Some (Some m)])
  /\ (forall n, length (toasts lastError (replicate n (Some (Some m)))) <= 1)
  /\ (m <> [] ->
      toasts lastError (errors ++ [None; Some (Some m)])
      = toasts lastError errors ++ [m])
  /\ Forall (fun t => t <> []) (toasts lastError errors).
Proof.
  split_and!.
  - by rewrite !toasts_app, toasts_same_twice.
  - intros n. apply toasts_repeated.
  - intros Hm. rewrite toasts_app. f_equal.
    rewrite toasts_cons.
    change (errorEffect (lastErrorAfter lastError errors) None)
      with (@None jsstring, @None jsstring).
    cbv iota. rewrite toasts_cons, errorEffect_message, decide_False; [done|].
    intros [?|?]; done.
  - apply toasts_not_empty.
Qed.

Lemma error_toast_discipline_witness :
  toasts None ([Some (Some (js "down"))] ++ [None; Some (Some (js "down"))])
  = toasts None [Some (Some (js "down"))] ++ [js "down"].
Proof.
  apply (proj1 (proj2 (proj2 (error_toast_discipline None
           [Some (Some (js "down"))] (js "down"))))).
  discriminate.
Defined.

End ToastTheory.

Section SubmitTheory.
Import Submit.

Lemma length_zero_empty (s : jsstring) : (length s =? 0) = true <-> s = [].
Proof. destruct s; simpl; split; done. Qed.

(** X18.  Nothing is submitted while the stream is loading, or when the
    input is blank and nothing is attached.  Otherwise the new message is a
    human one, it ends the optimistic list, which is the previous list and
    then what is submitted; and when no attachment is a text block, the text
    of the new message is the input as typed (the empty text for a blank
    input). *)
Theorem handleSubmit_behaviour (uuid input : jsstring) (contentBlocks : list ContentBlock)
    (isLoading : bool) (toolMessages : list Message) (prev : option (list Message)) :
  (isLoading = true ->
   handleSubmit uuid input contentBlocks isLoading toolMessages prev = None)
  /\ (JSString.trim input = [] -> contentBlocks = [] ->
      handleSubmit uuid input contentBlocks isLoading toolMessages prev = None)
  /\ (forall sub,
      handleSubmit uuid input contentBlocks isLoading toolMessages prev = Some sub ->
      msgType (newHumanMessage sub) = human
      /\ last (optimistic sub) = Some (newHumanMessage sub)
      /\ optimistic sub = default [] prev ++ submitted sub
      /\ (Forall (fun b => isTextBlock b = false) contentBlocks ->
          getContentString (msgContent (newHumanMessage sub))
          = if bool_decide (JSString.trim input = []) then []
            else input)).
Proof.
  unfold handleSubmit. split_and!.
  - intros ->. by rewrite orb_true_r.
  - intros Ht ->. by rewrite Ht.
  - intros sub. destruct (_ || isLoading); [done|]. intros [= <-]. simpl.
    split_and!; [done | | done |].
    + by rewrite !app_assoc, last_snoc.
    + intros Hall. unfold newContent.
      destruct (JSString.trim input) as [|c t] eqn:Ht; simpl.
      * by rewrite filter_none.
      * rewrite filter_none by done. reflexivity.
Qed.

(** A blank and a no-break space; a text while the stream is loading. *)
Lemma handleSubmit_behaviour_witness :
  handleSubmit (js "id-1") [32; 160]%N [] false [] None = None
  /\ handleSubmit (js "id-1") (js "hello") [] true [] None = None.
Proof.
  split.
  - apply (proj1 (proj2 (handleSubmit_behaviour (js "id-1") [32; 160]%N [] false [] None)));
      by vm_compute.
  - by apply (proj1 (handleSubmit_behaviour (js "id-1") (js "hello") [] true [] None)).
Defined.

End SubmitTheory.

(* ===================================================================== *)
(** * Further properties of the session *)
(* ===================================================================== *)

Section SessionMore.
Import Stream StreamInvariant.

Lemma run_snoc (s : Session) (es : list Event) (e : Event) :
  run s (es ++ [e]) = step (run s es) e.
Proof. unfold run. by rewrite foldl_snoc. Qed.

Lemma resume_cases (r : PollResponse) (s : Session) :
  (refreshHistory_resume r s = s)
  \/ (exists ms rest, r = History (Some (Some ms :: rest)) /\ ms <> []
        /\ pollHash ms <> lastPollRef s
        /\ refreshHistory_resume r s
           = mkSession (threadId s) (Some ms) (pollHash ms)
               (streamMessages s) (isLoading s) (inFlight s)).
Proof.
  destruct r as [| |[[|[ms|] rest]|]]; try (by left).
  simpl. destruct ms as [|m ms]; [by left|]. simpl.
  case_bool_decide as Hh; [|by left].
  right. exists (m :: ms), rest. done.
Qed.

Lemma step_hashInvariant (s : Session) (e : Event) :
  hashInvariant s -> hashInvariant (step s e).
Proof.
  intros Hs. destruct e as [msgs loading|newId| | |n r]; simpl; try done.
  - unfold refreshHistory_request.
    destruct (threadId s) as [t|]; [destruct (JSString.truthy t)|]; done.
  - destruct (isLoading s); [done|]. unfold refreshHistory_request.
    destruct (threadId s) as [t|]; [destruct (JSString.truthy t)|]; done.
  - destruct (inFlight s !! n); [|done].
    match goal with |- hashInvariant (refreshHistory_resume r ?s') =>
      destruct (resume_cases r s') as [-> | (ms & rest & _ & Hne & _ & ->)] end;
      done.
Qed.

Lemma step_inFlight (s : Session) (e : Event) :
  Forall (fun k => k <> []) (inFlight s) ->
  Forall (fun k => k <> []) (inFlight (step s e)).
Proof.
  assert (Hreq : forall s, Forall (fun k => k <> []) (inFlight s) ->
            Forall (fun k => k <> []) (inFlight (refreshHistory_request s))).
  { intros s0 H0. unfold refreshHistory_request.
    destruct (threadId s0) as [t|]; [|done].
    destruct t as [|c t]; [done|]. simpl. apply Forall_app. split; [done|].
    by constructor. }
  intros Hs. destruct e as [msgs loading|newId| | |n r]; simpl; try done.
  - by apply Hreq.
  - destruct (isLoading s); [done | by apply Hreq].
  - destruct (inFlight s !! n); [|done].
    match goal with |- Forall _ (inFlight (refreshHistory_resume r ?s')) =>
      destruct (resume_cases r s') as [-> | (ms & rest & _ & _ & _ & ->)] end;
      simpl; by apply Forall_delete.
Qed.

(** X19.  In every state the session reaches, the stored hash is the hash
    of the polled list, which is then not empty, and it is the empty string
    when there is no polled list. *)
Theorem poll_hash_invariant (es : list Event) :
  hashInvariant (run initial es).
Proof.
  induction es as [|e es IH] using rev_ind; [done|].
  rewrite run_snoc. by apply step_hashInvariant.
Qed.

(** X20.  A history request never leaves without a session key: every
    request in flight carries a non-empty key, and the interval asks for
    nothing while the stream is loading or while there is no key. *)
Theorem requests_carry_a_key (es : list Event) :
  Forall (fun k => k <> []) (inFlight (run initial es))
  /\ (isLoading (run initial es) = true \/ threadId (run initial es) = None
      \/ threadId (run initial es) = Some [] ->
      step (run initial es) PollInterval = run initial es).
Proof.
  split.
  - induction es as [|e es IH] using rev_ind; [constructor|].
    rewrite run_snoc. by apply step_inFlight.
  - simpl. unfold refreshHistory_request.
    intros [-> | [-> | ->]]; [done | |]; by destruct (isLoading _).
Qed.

Lemma requests_carry_a_key_witness :
  step (run initial [StreamTick (Some [ex_m1]) true]) PollInterval
  = run initial [StreamTick (Some [ex_m1]) true].
Proof.
  apply (proj2 (requests_carry_a_key [StreamTick (Some [ex_m1]) true])).
  left. reflexivity.
Defined.

(** X21.  A response that [refreshHistory] cannot take a list from (a
    failed or refused request, a body that is no array or is empty, a first
    entry without messages or with none) leaves the polled list and its hash
    as they are; and taking the same response twice is taking it once. *)
Theorem unusable_response_changes_nothing (s : Session) (n : nat) (r : PollResponse) :
  (~ usable r ->
   polledMessages (step s (PollResolve n r)) = polledMessages s
   /\ lastPollRef (step s (PollResolve n r)) = lastPollRef s)
  /\ refreshHistory_resume r (refreshHistory_resume r s) = refreshHistory_resume r s.
Proof.
  split.
  - intros Hr. simpl. destruct (inFlight s !! n); [|done].
    match goal with |- context [refreshHistory_resume r ?s'] =>
      destruct (resume_cases r s') as [-> | (ms & rest & -> & Hne & _ & _)] end;
      [done|].
    destruct Hr. by exists ms, rest.
  - destruct (resume_cases r s) as [E | (ms & rest & -> & Hne & Hh & ->)].
    + by rewrite !E.
    + simpl. destruct ms as [|m ms]; [done|]. simpl.
      by rewrite bool_decide_eq_false_2 by (intros H; by apply H).
Qed.

Lemma unusable_response_changes_nothing_witness :
  polledMessages (step (run initial ex_trace) (PollResolve 0 NotOk))
  = polledMessages (run initial ex_trace).
Proof.
  apply (proj1 (unusable_response_changes_nothing (run initial ex_trace) 0 NotOk)).
  intros (ms & rest & H & _). discriminate.
Defined.

(** X22.  A change of the session key empties the polled list and its hash,
    and the reconciled list is then the stream list, whatever had been
    polled; so it is whenever there is no polled list. *)
Theorem key_change_resets (s : Session) (newId : option jsstring) :
  polledMessages (step s (ThreadChange newId)) = None
  /\ lastPollRef (step s (ThreadChange newId)) = []
  /\ output (step s (ThreadChange newId)) = default [] (streamMessages s)
  /\ (polledMessages s = None -> output s = default [] (streamMessages s)).
Proof.
  assert (H : forall sm l, effectiveMessages sm None l = default [] sm).
  { intros sm l. unfold effectiveMessages. simpl.
    destruct l; [done|]. destruct (length (default [] sm)); done. }
  split_and!; [done | done | apply H |].
  intros Hp. unfold output. rewrite Hp. apply H.
Qed.

Lemma key_change_resets_witness :
  output (step (run initial ex_switch) ex_stale) = [ex_m1; ex_m2]
  /\ output (step (step (run initial ex_switch) ex_stale)
               (ThreadChange (Some (js "t3")))) = [].
Proof.
  split; [by vm_compute|].
  exact (proj1 (proj2 (proj2 (key_change_resets
           (step (run initial ex_switch) ex_stale) (Some (js "t3")))))).
Defined.

End SessionMore.

(* ===================================================================== *)
(** * Properties of the settings of [StreamProvider] *)
(* ===================================================================== *)

Section ProviderTheory.
Import Provider.

(** X23.  When the form is not shown, the deployment URL and the assistant
    id handed to the session are both non-empty strings.  When both
    environment variables are set, the form is never shown and the values
    are those of the environment, whatever the URL holds; otherwise a
    non-empty value of the URL goes before the environment. *)
Theorem provider_settings (c : Settings) :
  (showsForm c = false ->
   truthy (finalApiUrl c) = true /\ truthy (finalAssistantId c) = true)
  /\ (hasEnvVars c = true ->
      showsForm c = false
      /\ finalApiUrl c = envApiUrl c /\ finalAssistantId c = envAssistantId c)
  /\ (hasEnvVars c = false ->
      (apiUrl c <> [] -> finalApiUrl c = Some (apiUrl c))
      /\ (assistantId c <> [] -> finalAssistantId c = Some (assistantId c))).
Proof.
  unfold showsForm, finalApiUrl, finalAssistantId, orElse. split_and!.
  - destruct (hasEnvVars c) eqn:He.
    + apply andb_true_iff in He as [? ?]. done.
    + simpl. intros [H1%negb_false_iff H2%negb_false_iff]%orb_false_iff. done.
  - intros He. rewrite He. done.
  - intros He. rewrite He. split; intros Hne.
    + by destruct (apiUrl c).
    + by destruct (assistantId c).
Qed.

Lemma provider_settings_witness :
  let c := mkSettings (Some (js "http://localhost:2024")) None
             [] (js "agent") in
  truthy (finalApiUrl c) = true /\ truthy (finalAssistantId c) = true.
Proof.
  intros c. apply (proj1 (provider_settings c)). reflexivity.
Defined.

End ProviderTheory.

(* ===================================================================== *)
(** * Properties of the expanded items of the Q/A panels *)
(* ===================================================================== *)

Section PanelTheory.
Import QAPanel.

(** X24.  A second click on an item undoes the first, and a click on an
    item changes the state of no other item. *)
Theorem toggleItem_involution (index : nat) (expandedItems : gset nat) :
  toggleItem index (toggleItem index expandedItems) = expandedItems
  /\ (forall other, other <> index ->
        (other ∈ toggleItem index expandedItems <-> other ∈ expandedItems))
  /\ (index ∈ toggleItem index expandedItems <-> index ∉ expandedItems).
Proof.
  unfold toggleItem. split_and!.
  - destruct (decide (index ∈ expandedItems)) as [Hin|Hnin].
    + rewrite decide_False
        by (rewrite elem_of_difference, elem_of_singleton; tauto).
      apply leibniz_equiv. intros k.
      rewrite elem_of_union, elem_of_difference, elem_of_singleton.
      destruct (decide (k = index)) as [->|]; tauto.
    + rewrite decide_True
        by (rewrite elem_of_union, elem_of_singleton; tauto).
      apply leibniz_equiv. intros k.
      rewrite elem_of_difference, elem_of_union, elem_of_singleton.
      split; [tauto|]. intros Hk. split; [by right | by intros ->].
  - intros other Hne. destruct (decide (index ∈ expandedItems)).
    + rewrite elem_of_difference, elem_of_singleton. tauto.
    + rewrite elem_of_union, elem_of_singleton. tauto.
  - destruct (decide (index ∈ expandedItems)).
    + rewrite elem_of_difference, elem_of_singleton. tauto.
    + rewrite elem_of_union, elem_of_singleton. tauto.
Qed.

Lemma toggleItem_involution_witness :
  2 ∈ toggleItem 0 (allItems 3) <-> 2 ∈ allItems 3.
Proof.
  apply (proj1 (proj2 (toggleItem_involution 0 (allItems 3)))). discriminate.
Defined.

Lemma elem_of_allItems (n k : nat) : k ∈ allItems n <-> k < n.
Proof.
  unfold allItems. rewrite elem_of_list_to_set, elem_of_seq. lia.
Qed.

Lemma size_allItems (n : nat) : size (allItems n) = n.
Proof.
  unfold allItems. rewrite size_list_to_set by apply NoDup_seq.
  apply length_seq.
Qed.

Lemma click_subset (n : nat) (c : Click) (expandedItems : gset nat) :
  validClick n c -> expandedItems ⊆ allItems n -> click n expandedItems c ⊆ allItems n.
Proof.
  intros Hc Hs k. destruct c as [index|]; simpl in *.
  - unfold toggleItem. destruct (decide (index ∈ expandedItems)).
    + rewrite elem_of_difference. intros [? _]. by apply Hs.
    + rewrite elem_of_union, elem_of_singleton.
      intros [->|?]; [by apply elem_of_allItems | by apply Hs].
  - unfold toggleAll. destruct (size expandedItems =? n); [|done].
    by intros ?%elem_of_empty.
Qed.

Lemma clicks_subset (n : nat) (cs : list Click) :
  Forall (validClick n) cs -> clicks n cs ⊆ allItems n.
Proof.
  unfold clicks. induction cs as [|c cs IH] using rev_ind; intros Hall; [done|].
  apply Forall_app in Hall as [Hcs Hc]. apply Forall_cons in Hc as [Hc _].
  rewrite foldl_snoc. apply click_subset; auto.
Qed.

(** X25.  Through any clicks on the cards and on the button, only rendered
    items are ever expanded; so the button says "Collapse" exactly when
    every item is expanded, and a click on it then collapses them all, and
    expands them all in any other state. *)
Theorem toggleAll_label (n : nat) (cs : list Click) :
  Forall (validClick n) cs ->
  clicks n cs ⊆ allItems n
  /\ (saysCollapse n (clicks n cs) = true <-> clicks n cs = allItems n)
  /\ (clicks n cs = allItems n -> toggleAll n (clicks n cs) = ∅)
  /\ (clicks n cs <> allItems n -> toggleAll n (clicks n cs) = allItems n).
Proof.
  intros Hall. pose proof (clicks_subset n cs Hall) as Hsub.
  assert (Hiff : saysCollapse n (clicks n cs) = true <-> clicks n cs = allItems n).
  { unfold saysCollapse. rewrite Nat.eqb_eq. split.
    - intros Hsize. apply set_subseteq_size_eq; [done|].
      rewrite size_allItems. lia.
    - intros ->. apply size_allItems. }
  split_and!; [done | done | |].
  - intros Heq. apply Hiff in Heq. unfold toggleAll, saysCollapse in *. by rewrite Heq.
  - intros Hne. unfold toggleAll. destruct (size _ =? n) eqn:E; [|done].
    destruct Hne. by apply Hiff.
Qed.

Lemma toggleAll_label_witness :
  saysCollapse 3 (clicks 3 [ClickItem 1; ClickAll; ClickItem 2; ClickItem 2]) = true
  <-> clicks 3 [ClickItem 1; ClickAll; ClickItem 2; ClickItem 2] = allItems 3.
Proof.
  apply (toggleAll_label 3 [ClickItem 1; ClickAll; ClickItem 2; ClickItem 2]).
  repeat constructor; simpl; lia.
Defined.

End PanelTheory.

